(** * Lexer and recursive-descent parser of comp.py

    A shallow embedding of [lexer] and of the class [Parser] of
    [src/comp.py], and the properties of the specification settled on it.

    Conventions of the embedding.
    - A Python [str] is a Rocq [string]; a character is an [ascii], that is
      a code point in 0..255.  In that range the class [\d] of Python's
      [re] module is exactly ['0'..'9'].
    - A call that can raise returns an [outcome]; [ValueError] carries the
      message the source formats.
    - The [while] loop of [lexer] and the mutually recursive [parse_*]
      methods take a [fuel] argument.  For the lexer it counts iterations
      and [len(expression) + 1] of them are shown to be enough.  For the
      parser it bounds the depth of nested calls, as the stack limit of
      CPython does; [OutOfFuel] is a run that this bound cuts off, which
      CPython reports as [RecursionError] and not as an error of the
      parser. *)

From Stdlib Require Import String Ascii List Arith Bool Lia.
Import ListNotations.
Open Scope string_scope.
Open Scope list_scope.

(** ** Outcomes of a call *)

Inductive outcome (A : Type) : Type :=
| Return (a : A)
| ValueError (msg : string)
| IndexError
| OutOfFuel.

Arguments Return {A} a.
Arguments ValueError {A} msg.
Arguments IndexError {A}.
Arguments OutOfFuel {A}.

(** ** Regular expressions of [TOKEN_TYPES]

    The patterns only use literal characters, the class [\d], grouping,
    [?] and [+].  [ends r s] lists, in the order in which a backtracking
    matcher tries them, the lengths of the prefixes of [s] that [r]
    matches; [re.match] succeeds with the first of them. *)

Module Re.

Inductive regex : Type :=
| Chr (c : ascii)
| Digit
| Seq (r1 r2 : regex)
| Opt (r : regex)
| Plus (r : regex).

Definition is_digit (c : ascii) : bool :=
  Nat.leb 48 (nat_of_ascii c) && Nat.leb (nat_of_ascii c) 57.

(** Greedy iteration: after one match of the body, first try to iterate
    again, then stop. *)
Fixpoint plus_loop (body : list ascii -> list nat) (fuel : nat)
    (s : list ascii) : list nat :=
  match fuel with
  | 0 => []
  | S fuel' =>
      flat_map
        (fun n => map (Nat.add n) (plus_loop body fuel' (skipn n s)) ++ [n])
        (body s)
  end.

Fixpoint ends (r : regex) (s : list ascii) : list nat :=
  match r with
  | Chr c =>
      match s with
      | x :: _ => if Ascii.eqb x c then [1] else []
      | [] => []
      end
  | Digit =>
      match s with
      | x :: _ => if is_digit x then [1] else []
      | [] => []
      end
  | Seq r1 r2 =>
      flat_map (fun n => map (Nat.add n) (ends r2 (skipn n s))) (ends r1 s)
  | Opt r' => ends r' s ++ [0]
  | Plus r' => plus_loop (ends r') (S (List.length s)) s
  end.

(** [regex.match(expression, index)]: [Some e] is a match object whose
    [end()] is [e]; [None] is Python's [None]. *)
Definition rmatch (r : regex) (expression : string) (index : nat)
    : option nat :=
  match ends r (skipn index (list_ascii_of_string expression)) with
  | n :: _ => Some (index + n)
  | [] => None
  end.

(** A pattern that cannot match the empty string. *)
Fixpoint nullable (r : regex) : bool :=
  match r with
  | Chr _ | Digit => false
  | Seq r1 r2 => nullable r1 && nullable r2
  | Opt _ => true
  | Plus r' => nullable r'
  end.

End Re.

Import Re.

(** ** Tokens *)

Inductive token_type : Type :=
| NUMBER | PLUS | MINUS | MULTIPLY | DIVIDE | CARET | FACTORIAL
| SIN | COS | LPAREN | RPAREN | EOF.

Definition token_type_eqb (a b : token_type) : bool :=
  match a, b with
  | NUMBER, NUMBER | PLUS, PLUS | MINUS, MINUS | MULTIPLY, MULTIPLY
  | DIVIDE, DIVIDE | CARET, CARET | FACTORIAL, FACTORIAL | SIN, SIN
  | COS, COS | LPAREN, LPAREN | RPAREN, RPAREN | EOF, EOF => true
  | _, _ => false
  end.

(** The string a token type is written as, in tokens and in messages. *)
Definition type_name (t : token_type) : string :=
  match t with
  | NUMBER => "NUMBER" | PLUS => "PLUS" | MINUS => "MINUS"
  | MULTIPLY => "MULTIPLY" | DIVIDE => "DIVIDE" | CARET => "CARET"
  | FACTORIAL => "FACTORIAL" | SIN => "SIN" | COS => "COS"
  | LPAREN => "LPAREN" | RPAREN => "RPAREN" | EOF => "EOF"
  end.

(** A token is the pair [(token_type, lexeme)]. *)
Definition token : Type := token_type * string.

(** The pattern of [NUMBER]: one or more digits, then optionally a dot and
    one or more digits. *)
Definition NUMBER_pattern : regex :=
  Seq (Plus Digit) (Opt (Seq (Chr ".") (Plus Digit))).

(** [TOKEN_TYPES], in the insertion order of the dictionary. *)
Definition TOKEN_TYPES : list (token_type * regex) :=
  [ (NUMBER, NUMBER_pattern);
    (PLUS, Chr "+");
    (MINUS, Chr "-");
    (MULTIPLY, Chr "*");
    (DIVIDE, Chr "/");
    (CARET, Chr "^");
    (FACTORIAL, Chr "!");
    (SIN, Seq (Chr "s") (Seq (Chr "i") (Chr "n")));
    (COS, Seq (Chr "c") (Seq (Chr "o") (Chr "s")));
    (LPAREN, Chr "(");
    (RPAREN, Chr ")") ].

(** ** The lexer *)

(** [expression[i:j]]. *)
Definition slice (expression : string) (i j : nat) : string :=
  string_of_list_ascii
    (firstn (j - i) (skipn i (list_ascii_of_string expression))).

(** The [for] loop over [TOKEN_TYPES.items()]: the first pattern that
    matches at [index], with the end of its match. *)
Fixpoint first_match (items : list (token_type * regex))
    (expression : string) (index : nat) : option (token_type * nat) :=
  match items with
  | [] => None
  | (token_type, pattern) :: items' =>
      match rmatch pattern expression index with
      | Some e => Some (token_type, e)
      | None => first_match items' expression index
      end
  end.

(** The [while] loop of [lexer]; one unit of fuel per iteration. *)
Fixpoint lexer_loop (fuel : nat) (expression : string) (index : nat)
    (tokens : list token) : outcome (list token) :=
  match fuel with
  | 0 => OutOfFuel
  | S fuel' =>
      if Nat.ltb index (String.length expression) then
        match first_match TOKEN_TYPES expression index with
        | Some (token_type, e) =>
            lexer_loop fuel' expression e
              (tokens ++ [(token_type, slice expression index e)])
        | None =>
            match String.get index expression with
            | Some c => ValueError ("Unexpected character: " ++ String c "")
            | None => IndexError
            end
        end
      else Return (tokens ++ [(EOF, "EOF")])
  end.

(** Every iteration but the last consumes a character, so the loop runs at
    most [len(expression) + 1] times (lemma [lexer_loop_fuel]). *)
Definition lexer (expression : string) : outcome (list token) :=
  lexer_loop (S (String.length expression)) expression 0 [].

(** ** The syntax tree *)

(** [ASTNode(value, children)]; [children] defaults to the empty list. *)
#[warnings="-register-all"]
Inductive ASTNode : Type :=
| mkASTNode (value : string) (children : list ASTNode).

(** ** The parser object *)

Record Parser : Type := mkParser {
  tokens : list token;
  index : nat;
  current_token : token;
  derivation_steps : list string
}.

(** A method of [Parser]: it reads and updates [self] and returns or
    raises.  The object keeps the updates made before a raise. *)
Definition M (A : Type) : Type := Parser -> outcome A * Parser.

Definition ret {A : Type} (a : A) : M A := fun self => (Return a, self).

Definition bind {A B : Type} (m : M A) (k : A -> M B) : M B :=
  fun self =>
    match m self with
    | (Return a, self') => k a self'
    | (ValueError msg, self') => (ValueError msg, self')
    | (IndexError, self') => (IndexError, self')
    | (OutOfFuel, self') => (OutOfFuel, self')
    end.

Definition raise {A : Type} (msg : string) : M A :=
  fun self => (ValueError msg, self).

Definition out_of_fuel {A : Type} : M A := fun self => (OutOfFuel, self).

Declare Scope parser_scope.
Delimit Scope parser_scope with parser.
Notation "x <- m ;; k" := (bind m (fun x => k))
  (at level 61, m at next level, right associativity) : parser_scope.
Notation "m ;; k" := (bind m (fun _ => k))
  (at level 61, right associativity) : parser_scope.
Open Scope parser_scope.

(** [self.current_token[0]]. *)
Definition current_type : M token_type :=
  fun self => (Return (fst (current_token self)), self).

(** [self.derivation_steps.append(step)]. *)
Definition append_step (step : string) : M unit :=
  fun self =>
    (Return tt,
     {| tokens := tokens self;
        index := index self;
        current_token := current_token self;
        derivation_steps := derivation_steps self ++ [step] |}).

(** [Parser(tokens)]: [tokens[0]] raises on the empty list. *)
Definition __init__ (tokens : list token) : outcome Parser :=
  match nth_error tokens 0 with
  | Some t =>
      Return {| tokens := tokens; index := 0; current_token := t;
                derivation_steps := [] |}
  | None => IndexError
  end.

Definition advance : M unit :=
  fun self =>
    let index' := index self + 1 in
    if Nat.ltb index' (List.length (tokens self)) then
      match nth_error (tokens self) index' with
      | Some t =>
          (Return tt,
           {| tokens := tokens self; index := index'; current_token := t;
              derivation_steps := derivation_steps self |})
      | None =>
          (IndexError,
           {| tokens := tokens self; index := index';
              current_token := current_token self;
              derivation_steps := derivation_steps self |})
      end
    else
      (Return tt,
       {| tokens := tokens self; index := index';
          current_token := current_token self;
          derivation_steps := derivation_steps self |}).

(** [match] is a keyword of Rocq, hence the underscore. *)
Definition match_ (token_type : token_type) : M string :=
  fun self =>
    if token_type_eqb (fst (current_token self)) token_type then
      (let value := snd (current_token self) in
       advance ;;
       ret value) self
    else
      raise ("Syntax Error: Expected " ++ type_name token_type ++ ", found "
             ++ type_name (fst (current_token self))) self.

Definition unexpected_token {A : Type} : M A :=
  fun self =>
    raise ("Syntax Error: Unexpected token "
           ++ type_name (fst (current_token self))) self.

(** The five mutually recursive methods.  [fuel] is the depth of nested
    calls that is still allowed: every call passes one unit less to the
    calls it makes. *)
Fixpoint parse_E (fuel : nat) : M ASTNode :=
  match fuel with
  | 0 => out_of_fuel
  | S fuel' =>
      append_step "E -> T E'" ;;
      left <- parse_T fuel' ;;
      parse_E_PRIME fuel' left
  end

with parse_E_PRIME (fuel : nat) (left : ASTNode) : M ASTNode :=
  match fuel with
  | 0 => out_of_fuel
  | S fuel' =>
      t <- current_type ;;
      match t with
      | PLUS =>
          append_step "E' -> + T E'" ;;
          match_ PLUS ;;
          right <- parse_T fuel' ;;
          let node := mkASTNode "+" [left; right] in
          parse_E_PRIME fuel' node
      | MINUS =>
          append_step "E' -> - T E'" ;;
          match_ MINUS ;;
          right <- parse_T fuel' ;;
          let node := mkASTNode "-" [left; right] in
          parse_E_PRIME fuel' node
      | _ =>
          append_step "E' -> ε" ;;
          ret left
      end
  end

with parse_T (fuel : nat) : M ASTNode :=
  match fuel with
  | 0 => out_of_fuel
  | S fuel' =>
      append_step "T -> F T'" ;;
      left <- parse_F fuel' ;;
      parse_T_PRIME fuel' left
  end

with parse_T_PRIME (fuel : nat) (left : ASTNode) : M ASTNode :=
  match fuel with
  | 0 => out_of_fuel
  | S fuel' =>
      t <- current_type ;;
      match t with
      | MULTIPLY =>
          append_step "T' -> * F T'" ;;
          match_ MULTIPLY ;;
          right <- parse_F fuel' ;;
          let node := mkASTNode "*" [left; right] in
          parse_T_PRIME fuel' node
      | DIVIDE =>
          append_step "T' -> / F T'" ;;
          match_ DIVIDE ;;
          right <- parse_F fuel' ;;
          let node := mkASTNode "/" [left; right] in
          parse_T_PRIME fuel' node
      | _ =>
          append_step "T' -> ε" ;;
          ret left
      end
  end

with parse_F (fuel : nat) : M ASTNode :=
  match fuel with
  | 0 => out_of_fuel
  | S fuel' =>
      t <- current_type ;;
      match t with
      | LPAREN =>
          append_step "F -> ( E )" ;;
          match_ LPAREN ;;
          node <- parse_E fuel' ;;
          match_ RPAREN ;;
          ret node
      | NUMBER =>
          append_step "F -> NUMBER" ;;
          value <- match_ NUMBER ;;
          ret (mkASTNode value [])
      | SIN =>
          append_step "F -> sin F" ;;
          match_ SIN ;;
          child <- parse_F fuel' ;;
          ret (mkASTNode "sin" [child])
      | COS =>
          append_step "F -> cos F" ;;
          match_ COS ;;
          child <- parse_F fuel' ;;
          ret (mkASTNode "cos" [child])
      | CARET =>
          append_step "F -> F ^ F" ;;
          left <- parse_F fuel' ;;
          match_ CARET ;;
          right <- parse_F fuel' ;;
          ret (mkASTNode "^" [left; right])
      | FACTORIAL =>
          append_step "F -> F !" ;;
          child <- parse_F fuel' ;;
          match_ FACTORIAL ;;
          ret (mkASTNode "!" [child])
      | _ => unexpected_token
      end
  end.

Definition parse (fuel : nat) : M (ASTNode * list string) :=
  match fuel with
  | 0 => out_of_fuel
  | S fuel' =>
      ast <- parse_E fuel' ;;
      t <- current_type ;;
      if negb (token_type_eqb t EOF) then unexpected_token
      else fun self => (Return (ast, derivation_steps self), self)
  end.

(** [Parser(tokens).parse()], as [main] calls it. *)
Definition run_parse (fuel : nat) (tokens : list token)
    : outcome (ASTNode * list string) :=
  match __init__ tokens with
  | Return parser => fst (parse fuel parser)
  | ValueError msg => ValueError msg
  | IndexError => IndexError
  | OutOfFuel => OutOfFuel
  end.

(** [lexer] followed by [Parser(tokens).parse()], the two calls of [main]. *)
Definition analyse (fuel : nat) (expression : string)
    : outcome (ASTNode * list string) :=
  match lexer expression with
  | Return tokens => run_parse fuel tokens
  | ValueError msg => ValueError msg
  | IndexError => IndexError
  | OutOfFuel => OutOfFuel
  end.

(** ** Vocabulary of the statements *)

(** Length of the longest run of digits at the head of [s]. *)
Fixpoint digit_run (s : list ascii) : nat :=
  match s with
  | c :: s' => if is_digit c then S (digit_run s') else 0
  | [] => 0
  end.

(** Where a number that starts [s] ends: after the digits, or after a dot
    and further digits when they follow. *)
Definition number_end (s : list ascii) : option nat :=
  match digit_run s with
  | 0 => None
  | S k =>
      match skipn (S k) s with
      | c :: s' =>
          if Ascii.eqb c "." then
            match digit_run s' with
            | 0 => Some (S k)
            | S j => Some (S k + (1 + S j))
            end
          else Some (S k)
      | [] => Some (S k)
      end
  end.

(** A non-empty string of digits. *)
Definition digits (s : string) : bool :=
  negb (String.eqb s "") && forallb is_digit (list_ascii_of_string s).

(** A string made of digits and ['.'] only. *)
Definition digits_or_dots (s : string) : bool :=
  forallb (fun c => is_digit c || Ascii.eqb c ".") (list_ascii_of_string s).

(** No pattern of [TOKEN_TYPES] matches at [index]. *)
Definition no_match_at (expression : string) (index : nat) : bool :=
  forallb
    (fun item =>
       match rmatch (snd item) expression index with
       | Some _ => false
       | None => true
       end)
    TOKEN_TYPES.

(** The positions the scan of [lexer] stops at: 0, and the end of the
    match taken at each position it stops at. *)
Inductive scanned (expression : string) : nat -> Prop :=
| scanned_start : scanned expression 0
| scanned_next (index e : nat) (token_type : token_type) :
    scanned expression index ->
    index < String.length expression ->
    first_match TOKEN_TYPES expression index = Some (token_type, e) ->
    scanned expression e.

(** The last token has type [EOF]. *)
Definition EOF_terminated (toks : list token) : bool :=
  match rev toks with
  | tok :: _ => token_type_eqb (fst tok) EOF
  | [] => false
  end.

(** [current_token] is an element of [tokens]: the one at [index], or the
    last one once [index] has moved past it. *)
Definition current_defined (self : Parser) : Prop :=
  nth_error (tokens self)
    (Nat.min (index self) (List.length (tokens self) - 1))
  = Some (current_token self).

(** [index] is at the last token or past it. *)
Definition at_end (self : Parser) : Prop :=
  List.length (tokens self) - 1 <= index self.

(** The message of a syntax error names the type of [current_token]. *)
Definition names_current (msg : string) (self : Parser) : Prop :=
  msg = ("Syntax Error: Unexpected token "
         ++ type_name (fst (current_token self)))%string
  \/ exists token_type,
      msg = ("Syntax Error: Expected " ++ type_name token_type ++ ", found "
             ++ type_name (fst (current_token self)))%string.

(** A method that, from a parser whose [current_token] is defined, makes
    no access out of range, keeps the token list, leaves [current_token]
    defined and, when it raises, names the token it stopped at. *)
Definition safe {A : Type} (m : M A) : Prop :=
  forall self,
    current_defined self ->
    fst (m self) <> IndexError
    /\ tokens (snd (m self)) = tokens self
    /\ current_defined (snd (m self))
    /\ (forall msg, fst (m self) = ValueError msg ->
        names_current msg (snd (m self))).

(** No token has type [CARET] or [FACTORIAL]. *)
Definition operator_free (toks : list token) : bool :=
  forallb
    (fun tok =>
       match fst tok with
       | CARET | FACTORIAL => false
       | _ => true
       end)
    toks.

(** The parser reads [toks], its current token is the one at [index] and
    [r] tokens remain before the last one. *)
Definition remaining (toks : list token) (self : Parser) (r : nat) : Prop :=
  tokens self = toks
  /\ index self + r + 1 = List.length toks
  /\ nth_error toks (index self) = Some (current_token self).

(** From a parser with [r] tokens remaining the method returns or raises
    (the depth allowed is enough) and does not move backwards. *)
Definition returns_within {A : Type} (toks : list token) (m : M A)
    (r : nat) : Prop :=
  forall self,
    remaining toks self r ->
    fst (m self) <> OutOfFuel
    /\ exists r', r' <= r /\ remaining toks (snd (m self)) r'.

(** The method raises and leaves the parser as it is, or returns having
    consumed exactly one token. *)
Definition consumes_one {A : Type} (toks : list token) (m : M A)
    (r : nat) : Prop :=
  forall self,
    remaining toks self r ->
    (exists msg, m self = (ValueError msg, self))
    \/ (exists a self',
          m self = (Return a, self')
          /\ 1 <= r /\ remaining toks self' (r - 1)).

(** The lexemes of a token list, concatenated. *)
Definition lexemes (toks : list token) : string :=
  String.concat "" (map snd toks).

(** ** The grammar

    [GRAMMAR] read as a relation between the tokens a non-terminal
    covers, the tree built from them and the productions applied, in the
    order [parse_*] logs them.  [E'] and [T'] take the tree built so far
    as [left].  The productions [F ^ F] and [F !] are left out: no run of
    [parse_F] completes them. *)

Inductive derives_E : list token -> ASTNode -> list string -> Prop :=
| E_T_E' (c1 c2 : list token) (left a : ASTNode) (l1 l2 : list string) :
    derives_T c1 left l1 ->
    derives_E' left c2 a l2 ->
    derives_E (c1 ++ c2) a ("E -> T E'" :: l1 ++ l2)

with derives_E' : ASTNode -> list token -> ASTNode -> list string -> Prop :=
| E'_plus (left right a : ASTNode) (lexeme : string) (c1 c2 : list token)
    (l1 l2 : list string) :
    derives_T c1 right l1 ->
    derives_E' (mkASTNode "+" [left; right]) c2 a l2 ->
    derives_E' left ((PLUS, lexeme) :: c1 ++ c2) a
      ("E' -> + T E'" :: l1 ++ l2)
| E'_minus (left right a : ASTNode) (lexeme : string) (c1 c2 : list token)
    (l1 l2 : list string) :
    derives_T c1 right l1 ->
    derives_E' (mkASTNode "-" [left; right]) c2 a l2 ->
    derives_E' left ((MINUS, lexeme) :: c1 ++ c2) a
      ("E' -> - T E'" :: l1 ++ l2)
| E'_empty (left : ASTNode) :
    derives_E' left [] left ["E' -> ε"]

with derives_T : list token -> ASTNode -> list string -> Prop :=
| T_F_T' (c1 c2 : list token) (left a : ASTNode) (l1 l2 : list string) :
    derives_F c1 left l1 ->
    derives_T' left c2 a l2 ->
    derives_T (c1 ++ c2) a ("T -> F T'" :: l1 ++ l2)

with derives_T' : ASTNode -> list token -> ASTNode -> list string -> Prop :=
| T'_multiply (left right a : ASTNode) (lexeme : string)
    (c1 c2 : list token) (l1 l2 : list string) :
    derives_F c1 right l1 ->
    derives_T' (mkASTNode "*" [left; right]) c2 a l2 ->
    derives_T' left ((MULTIPLY, lexeme) :: c1 ++ c2) a
      ("T' -> * F T'" :: l1 ++ l2)
| T'_divide (left right a : ASTNode) (lexeme : string)
    (c1 c2 : list token) (l1 l2 : list string) :
    derives_F c1 right l1 ->
    derives_T' (mkASTNode "/" [left; right]) c2 a l2 ->
    derives_T' left ((DIVIDE, lexeme) :: c1 ++ c2) a
      ("T' -> / F T'" :: l1 ++ l2)
| T'_empty (left : ASTNode) :
    derives_T' left [] left ["T' -> ε"]

with derives_F : list token -> ASTNode -> list string -> Prop :=
| F_parens (lexeme1 lexeme2 : string) (c : list token) (a : ASTNode)
    (l : list string) :
    derives_E c a l ->
    derives_F ((LPAREN, lexeme1) :: c ++ [(RPAREN, lexeme2)]) a
      ("F -> ( E )" :: l)
| F_NUMBER (value : string) :
    derives_F [(NUMBER, value)] (mkASTNode value []) ["F -> NUMBER"]
| F_sin (lexeme : string) (c : list token) (child : ASTNode)
    (l : list string) :
    derives_F c child l ->
    derives_F ((SIN, lexeme) :: c) (mkASTNode "sin" [child])
      ("F -> sin F" :: l)
| F_cos (lexeme : string) (c : list token) (child : ASTNode)
    (l : list string) :
    derives_F c child l ->
    derives_F ((COS, lexeme) :: c) (mkASTNode "cos" [child])
      ("F -> cos F" :: l).

Scheme derives_E_mut := Minimality for derives_E Sort Prop
  with derives_E'_mut := Minimality for derives_E' Sort Prop
  with derives_T_mut := Minimality for derives_T Sort Prop
  with derives_T'_mut := Minimality for derives_T' Sort Prop
  with derives_F_mut := Minimality for derives_F Sort Prop.

Combined Scheme derives_mutind from derives_E_mut, derives_E'_mut,
  derives_T_mut, derives_T'_mut, derives_F_mut.

(** A method that returns has logged [l], consumed the tokens [c] and
    returned a value that [Q] relates to them. *)
Definition yields {A : Type} (toks : list token) (m : M A)
    (Q : A -> list string -> list token -> Prop) : Prop :=
  forall self r a self',
    remaining toks self r ->
    m self = (Return a, self') ->
    exists r' l c,
      remaining toks self' r'
      /\ derivation_steps self' = derivation_steps self ++ l
      /\ skipn (index self) toks = c ++ skipn (index self') toks
      /\ Q a l c.

(** The next token, if any, has none of the types [kinds]. *)
Definition next_not (kinds : list token_type) (rest : list token) : Prop :=
  match rest with
  | tok :: _ => ~ In (fst tok) kinds
  | [] => True
  end.

(** The parser reads [toks], [input] is what is left of them from [index]
    on, [current_token] is its first token and [log] the steps so far. *)
Definition reads (toks : list token) (self : Parser) (input : list token)
    (log : list string) : Prop :=
  tokens self = toks
  /\ skipn (index self) toks = input
  /\ hd_error input = Some (current_token self)
  /\ derivation_steps self = log.

(** From a parser that reads [c] and then [rest], whose first token has
    none of the types [follow], [run] returns [a] once the depth allowed
    reaches some [n], having consumed [c] and logged [l]. *)
Definition parsed {A : Type} (toks : list token) (run : nat -> M A)
    (c : list token) (a : A) (l : list string)
    (follow : list token_type) : Prop :=
  forall self rest log,
    reads toks self (c ++ rest) log ->
    rest <> [] ->
    next_not follow rest ->
    exists n self',
      reads toks self' rest (log ++ l)
      /\ forall k, run (n + k) self = (Return a, self').

(** ** Shape of the trees *)


(** The values of a tree, an operator between its two operands and a
    function before its operand. *)
Fixpoint inorder (a : ASTNode) : list string :=
  match a with
  | mkASTNode value children =>
      match children with
      | [lhs; rhs] => inorder lhs ++ value :: inorder rhs
      | [child] => value :: inorder child
      | _ => [value]
      end
  end.

(** What a token contributes to a tree: the text of a number, the symbol
    of an operator or function, nothing for a parenthesis or [EOF]. *)
Definition symbol (tok : token) : list string :=
  match fst tok with
  | NUMBER => [snd tok]
  | PLUS => ["+"]
  | MINUS => ["-"]
  | MULTIPLY => ["*"]
  | DIVIDE => ["/"]
  | CARET => ["^"]
  | FACTORIAL => ["!"]
  | SIN => ["sin"]
  | COS => ["cos"]
  | LPAREN | RPAREN | EOF => []
  end.

(** The number of parentheses open after [c], starting from [depth];
    [None] when one is closed that was not opened. *)
Fixpoint paren_depth (depth : nat) (c : list token) : option nat :=
  match c with
  | [] => Some depth
  | tok :: c' =>
      match fst tok with
      | LPAREN => paren_depth (S depth) c'
      | RPAREN =>
          match depth with
          | 0 => None
          | S depth' => paren_depth depth' c'
          end
      | _ => paren_depth depth c'
      end
  end.

Definition balanced (c : list token) : bool :=
  match paren_depth 0 c with
  | Some 0 => true
  | _ => false
  end.

(** A token of an operand or operator the parser can consume. *)
Definition consumable (tok : token) : bool :=
  match fst tok with
  | CARET | FACTORIAL | EOF => false
  | _ => true
  end.

(** ** Shape of the lexemes *)

(** Digits, or digits, a dot and digits. *)
Definition number_shape (s : string) : Prop :=
  exists ip,
    digits ip = true
    /\ (s = ip
        \/ exists fp, digits fp = true /\ s = (ip ++ "." ++ fp)%string).

(** The lexeme a token type stands for. *)
Definition lexeme_matches (tok : token) : Prop :=
  match fst tok with
  | NUMBER => number_shape (snd tok)
  | PLUS => snd tok = "+"
  | MINUS => snd tok = "-"
  | MULTIPLY => snd tok = "*"
  | DIVIDE => snd tok = "/"
  | CARET => snd tok = "^"
  | FACTORIAL => snd tok = "!"
  | SIN => snd tok = "sin"
  | COS => snd tok = "cos"
  | LPAREN => snd tok = "("
  | RPAREN => snd tok = ")"
  | EOF => snd tok = "EOF"
  end.

(** The text of a pattern made of literal characters only. *)
Fixpoint literal (r : regex) : option (list ascii) :=
  match r with
  | Chr c => Some [c]
  | Seq r1 r2 =>
      match literal r1, literal r2 with
      | Some cs1, Some cs2 => Some (cs1 ++ cs2)
      | _, _ => None
      end
  | _ => None
  end.

(** The characters that occur in some lexeme. *)
Definition in_alphabet (c : ascii) : bool :=
  is_digit c
  || existsb (Ascii.eqb c) (list_ascii_of_string ".+-*/^!()sinco").

(** [s] without its parentheses. *)
Definition remove_parens (s : string) : string :=
  string_of_list_ascii
    (filter (fun c => negb (Ascii.eqb c "(" || Ascii.eqb c ")"))
       (list_ascii_of_string s)).

Definition is_NUMBER (tok : token) : bool := token_type_eqb (fst tok) NUMBER.

(** Two [NUMBER] tokens stand next to each other. *)
Fixpoint adjacent_numbers (toks : list token) : bool :=
  match toks with
  | tok1 :: toks' =>
      match toks' with
      | tok2 :: _ => is_NUMBER tok1 && is_NUMBER tok2
      | [] => false
      end
      || adjacent_numbers toks'
  | [] => false
  end.

(** [m2] does what [m1] does wherever [m1] is not cut off. *)
Definition extends {A : Type} (m1 m2 : M A) : Prop :=
  forall self, fst (m1 self) <> OutOfFuel -> m2 self = m1 self.

(** ** Sums of products

    An expression without parentheses and functions: products of numbers
    joined by [+] and [-].  A product is its first number and the further
    ones, each with [true] for [*] and [false] for [/]; a sum is its first
    product and the further ones, each with [true] for [+] and [false]
    for [-]. *)

Definition product : Type := string * list (bool * string).

Definition times_token (op : bool) : token :=
  if op then (MULTIPLY, "*") else (DIVIDE, "/").

Definition plus_token (op : bool) : token :=
  if op then (PLUS, "+") else (MINUS, "-").

Definition factors_tokens (factors : list (bool * string)) : list token :=
  flat_map (fun f => [times_token (fst f); (NUMBER, snd f)]) factors.

Definition product_tokens (p : product) : list token :=
  (NUMBER, fst p) :: factors_tokens (snd p).

Definition terms_tokens (terms : list (bool * product)) : list token :=
  flat_map (fun t => plus_token (fst t) :: product_tokens (snd t)) terms.

(** The trees, nested to the left. *)
Definition factors_tree (left : ASTNode) (factors : list (bool * string))
    : ASTNode :=
  fold_left
    (fun acc f =>
       mkASTNode (snd (times_token (fst f))) [acc; mkASTNode (snd f) []])
    factors left.

Definition product_tree (p : product) : ASTNode :=
  factors_tree (mkASTNode (fst p) []) (snd p).

Definition terms_tree (left : ASTNode) (terms : list (bool * product))
    : ASTNode :=
  fold_left
    (fun acc t =>
       mkASTNode (snd (plus_token (fst t))) [acc; product_tree (snd t)])
    terms left.

(** The symbol of a binary operator. *)
Definition binary_symbol (t : token_type) : option string :=
  match t with
  | PLUS => Some "+"
  | MINUS => Some "-"
  | MULTIPLY => Some "*"
  | DIVIDE => Some "/"
  | _ => None
  end.

(** From a parser with [r] tokens remaining, where [m1] is not cut off
    [m2] does the same, and neither moves backwards. *)
Definition settled {A : Type} (toks : list token) (m1 m2 : M A)
    (r : nat) : Prop :=
  forall self,
    remaining toks self r ->
    fst (m1 self) <> OutOfFuel ->
    m2 self = m1 self
    /\ exists r', r' <= r /\ remaining toks (snd (m1 self)) r'.

(** * Properties of the regular expressions *)

Lemma flat_map_agree {A B : Type} (f g : A -> list B) (l : list A) :
  (forall a, In a l -> f a = g a) -> flat_map f l = flat_map g l.
Proof.
  induction l as [|a l IH]; simpl; intros H; [reflexivity|].
  rewrite (H a) by (left; reflexivity).
  rewrite IH by (intros; apply H; right; assumption).
  reflexivity.
Qed.

Section PlusLoop.

Variable body : list ascii -> list nat.

Lemma plus_loop_le :
  (forall s n, In n (body s) -> n <= List.length s) ->
  forall fuel s n, In n (plus_loop body fuel s) -> n <= List.length s.
Proof.
  intros Hb fuel. induction fuel as [|fuel IH]; simpl; intros s n H.
  - contradiction.
  - apply in_flat_map in H as [n1 [H1 H2]].
    apply Hb in H1.
    apply in_app_or in H2 as [H2|[<-|[]]]; [|assumption].
    apply in_map_iff in H2 as [m [<- Hm]].
    apply IH in Hm. rewrite length_skipn in Hm. lia.
Qed.

Lemma plus_loop_pos :
  (forall s n, In n (body s) -> 1 <= n) ->
  forall fuel s n, In n (plus_loop body fuel s) -> 1 <= n.
Proof.
  intros Hb fuel. induction fuel as [|fuel IH]; simpl; intros s n H.
  - contradiction.
  - apply in_flat_map in H as [n1 [H1 H2]].
    apply Hb in H1.
    apply in_app_or in H2 as [H2|[<-|[]]]; [|assumption].
    apply in_map_iff in H2 as [m [<- Hm]]. lia.
Qed.

(** With a body that consumes at least one character, fuel beyond the
    length of the text changes nothing. *)
Lemma plus_loop_fuel :
  (forall s n, In n (body s) -> 1 <= n <= List.length s) ->
  forall fuel fuel' s, List.length s < fuel -> List.length s < fuel' ->
    plus_loop body fuel s = plus_loop body fuel' s.
Proof.
  intros Hb fuel.
  induction fuel as [|fuel IH]; intros fuel' s Hlen Hlen'; [lia|].
  destruct fuel' as [|fuel']; [lia|].
  cbn [plus_loop].
  apply flat_map_agree. intros n Hn. apply Hb in Hn as [Hn1 Hn2].
  f_equal. f_equal.
  apply IH; rewrite length_skipn; lia.
Qed.

End PlusLoop.

Lemma ends_le (r : regex) :
  forall s n, In n (ends r s) -> n <= List.length s.
Proof.
  induction r as [c| |r1 IH1 r2 IH2|r IH|r IH]; intros s n H;
    cbn [ends] in H.
  - destruct s as [|x s]; [contradiction|].
    destruct (Ascii.eqb x c); [|contradiction].
    destruct H as [<-|[]]. simpl. lia.
  - destruct s as [|x s]; [contradiction|].
    destruct (is_digit x); [|contradiction].
    destruct H as [<-|[]]. simpl. lia.
  - apply in_flat_map in H as [n1 [H1 H2]].
    apply in_map_iff in H2 as [m [<- Hm]].
    apply IH1 in H1. apply IH2 in Hm. rewrite length_skipn in Hm. lia.
  - apply in_app_or in H as [H|[<-|[]]]; [auto|lia].
  - revert H. apply plus_loop_le. exact IH.
Qed.

Lemma ends_pos (r : regex) :
  nullable r = false -> forall s n, In n (ends r s) -> 1 <= n.
Proof.
  induction r as [c| |r1 IH1 r2 IH2|r IH|r IH]; intros Hnull s n H;
    cbn [ends nullable] in H, Hnull.
  - destruct s as [|x s]; [contradiction|].
    destruct (Ascii.eqb x c); [|contradiction].
    destruct H as [<-|[]]. lia.
  - destruct s as [|x s]; [contradiction|].
    destruct (is_digit x); [|contradiction].
    destruct H as [<-|[]]. lia.
  - apply in_flat_map in H as [n1 [H1 H2]].
    apply in_map_iff in H2 as [m [<- Hm]].
    apply andb_false_iff in Hnull as [Hnull|Hnull].
    + specialize (IH1 Hnull _ _ H1). lia.
    + specialize (IH2 Hnull _ _ Hm). lia.
  - discriminate.
  - revert H. apply plus_loop_pos. intros. eapply IH; eauto.
Qed.

(** The iteration of [Plus] inside [ends] has fuel enough. *)
Lemma ends_Plus_fuel (r : regex) (s : list ascii) (fuel : nat) :
  nullable r = false -> List.length s < fuel ->
  plus_loop (ends r) fuel s = ends (Plus r) s.
Proof.
  intros Hnull Hlen. cbn [ends]. apply plus_loop_fuel; [|exact Hlen|lia].
  intros s' n H. split; [eapply ends_pos|eapply ends_le]; eauto.
Qed.

Lemma length_list_ascii_of_string (s : string) :
  List.length (list_ascii_of_string s) = String.length s.
Proof. induction s as [|c s IH]; simpl; congruence. Qed.

Lemma list_ascii_of_string_app (s1 s2 : string) :
  list_ascii_of_string (s1 ++ s2)
  = list_ascii_of_string s1 ++ list_ascii_of_string s2.
Proof. induction s1 as [|c s1 IH]; simpl; congruence. Qed.

Lemma string_of_list_ascii_app (l1 l2 : list ascii) :
  string_of_list_ascii (l1 ++ l2)
  = (string_of_list_ascii l1 ++ string_of_list_ascii l2)%string.
Proof. induction l1 as [|c l1 IH]; simpl; congruence. Qed.

Lemma rmatch_bounds (r : regex) (expression : string) (index e : nat) :
  nullable r = false ->
  rmatch r expression index = Some e ->
  index < e <= String.length expression.
Proof.
  unfold rmatch. intros Hnull H.
  destruct (ends r _) as [|n l] eqn:E; [discriminate|].
  injection H as <-.
  assert (Hin : In n (ends r (skipn index (list_ascii_of_string expression))))
    by (rewrite E; left; reflexivity).
  pose proof (ends_pos r Hnull _ _ Hin) as Hp.
  pose proof (ends_le r _ _ Hin) as Hl.
  rewrite length_skipn, length_list_ascii_of_string in Hl. lia.
Qed.

(** * Properties of the lexer *)

Lemma get_nth_error (s : string) (n : nat) :
  String.get n s = nth_error (list_ascii_of_string s) n.
Proof.
  revert n. induction s as [|c s IH]; intros [|n]; simpl; auto.
Qed.

Lemma get_in_range (s : string) (n : nat) :
  n < String.length s -> exists c, String.get n s = Some c.
Proof.
  intros H. rewrite get_nth_error.
  destruct (nth_error (list_ascii_of_string s) n) as [c|] eqn:E; eauto.
  apply nth_error_None in E. rewrite length_list_ascii_of_string in E. lia.
Qed.

Lemma lexemes_cons (tok : token) (toks : list token) :
  lexemes (tok :: toks) = (snd tok ++ lexemes toks)%string.
Proof.
  unfold lexemes. simpl. destruct (map snd toks) as [|x l] eqn:E.
  - simpl. clear E. induction (snd tok) as [|c s IH]; simpl; congruence.
  - reflexivity.
Qed.

(** What the [for] loop of the lexer finds, over any table of patterns
    that cannot match the empty string. *)
Lemma first_match_bounds (items : list (token_type * regex))
    (expression : string) (index e : nat) (t : token_type) :
  Forall (fun item => nullable (snd item) = false) items ->
  first_match items expression index = Some (t, e) ->
  In t (map fst items) /\ index < e <= String.length expression.
Proof.
  induction items as [|[t' r] items IH]; simpl; intros Hall H.
  - discriminate.
  - inversion Hall as [|? ? Hr Hitems]; subst. simpl in Hr.
    destruct (rmatch r expression index) as [e'|] eqn:E.
    + injection H as <- <-. split; [left; reflexivity|].
      eapply rmatch_bounds; eauto.
    + destruct (IH Hitems H) as [Hin Hb]. auto.
Qed.

Lemma TOKEN_TYPES_not_nullable :
  Forall (fun item => nullable (snd item) = false) TOKEN_TYPES.
Proof. repeat constructor. Qed.

Lemma TOKEN_TYPES_match (expression : string) (index e : nat)
    (t : token_type) :
  first_match TOKEN_TYPES expression index = Some (t, e) ->
  t <> EOF /\ index < e <= String.length expression.
Proof.
  intros H.
  apply (first_match_bounds _ _ _ _ _ TOKEN_TYPES_not_nullable) in H
    as [Hin Hb].
  split; [|exact Hb].
  intros ->. simpl in Hin.
  repeat (destruct Hin as [Hin|Hin]; [discriminate|]). contradiction.
Qed.

Lemma first_match_None (items : list (token_type * regex))
    (expression : string) (index : nat) :
  first_match items expression index = None <->
  forallb
    (fun item =>
       match rmatch (snd item) expression index with
       | Some _ => false
       | None => true
       end) items = true.
Proof.
  induction items as [|[t r] items IH]; simpl.
  - tauto.
  - destruct (rmatch r expression index); simpl.
    + split; discriminate.
    + exact IH.
Qed.

(** Fuel beyond the number of characters left changes nothing. *)
Lemma lexer_loop_fuel (fuel fuel' : nat) (expression : string) :
  forall (index : nat) (tokens : list token),
    String.length expression - index < fuel ->
    String.length expression - index < fuel' ->
    lexer_loop fuel expression index tokens
    = lexer_loop fuel' expression index tokens.
Proof.
  revert fuel'.
  induction fuel as [|fuel IH]; intros fuel' index tokens H H'; [lia|].
  destruct fuel' as [|fuel']; [lia|].
  cbn [lexer_loop].
  destruct (Nat.ltb index (String.length expression)) eqn:Hlt;
    [|reflexivity].
  apply Nat.ltb_lt in Hlt.
  destruct (first_match TOKEN_TYPES expression index) as [[t e]|] eqn:E;
    [|reflexivity].
  apply TOKEN_TYPES_match in E as [_ Hb].
  apply IH; lia.
Qed.

(** The loop from [index] on: it returns the tokens it was given, then
    tokens other than [EOF] whose lexemes are the rest of the text, then
    [EOF]; or it raises [ValueError]. *)
Lemma lexer_loop_result (fuel : nat) (expression : string) :
  forall (index : nat) (tokens : list token),
    String.length expression - index < fuel ->
    (exists body,
        lexer_loop fuel expression index tokens
        = Return (tokens ++ body ++ [(EOF, "EOF")])
        /\ Forall (fun tok => fst tok <> EOF) body
        /\ list_ascii_of_string (lexemes body)
           = skipn index (list_ascii_of_string expression))
    \/ (exists msg,
        lexer_loop fuel expression index tokens = ValueError msg).
Proof.
  induction fuel as [|fuel IH]; intros index tokens H; [lia|].
  cbn [lexer_loop].
  destruct (Nat.ltb index (String.length expression)) eqn:Hlt.
  - apply Nat.ltb_lt in Hlt.
    destruct (first_match TOKEN_TYPES expression index) as [[t e]|] eqn:E.
    + apply TOKEN_TYPES_match in E as [Ht Hb].
      destruct (IH e (tokens ++ [(t, slice expression index e)]))
        as [[body [HR [Hall Hlex]]]|[msg HR]]; [lia| |].
      * left. exists ((t, slice expression index e) :: body).
        split; [|split].
        -- rewrite HR, <- app_assoc. reflexivity.
        -- constructor; assumption.
        -- rewrite lexemes_cons, list_ascii_of_string_app, Hlex.
           cbn [snd]. unfold slice.
           rewrite list_ascii_of_string_of_list_ascii.
           replace e with ((e - index) + index) at 2 by lia.
           rewrite <- skipn_skipn. apply firstn_skipn.
      * right. exists msg. exact HR.
    + right. destruct (get_in_range expression index Hlt) as [c ->]. eauto.
  - apply Nat.ltb_ge in Hlt. left. exists []. split; [|split].
    + reflexivity.
    + constructor.
    + rewrite skipn_all2; [reflexivity|].
      rewrite length_list_ascii_of_string. exact Hlt.
Qed.

(** [lexer] returns or raises [ValueError]: its loop never runs out of
    fuel and [expression[index]] is always in range. *)
Lemma lexer_total (expression : string) :
  (exists toks, lexer expression = Return toks)
  \/ (exists msg, lexer expression = ValueError msg).
Proof.
  destruct (lexer_loop_result (S (String.length expression)) expression 0 [])
    as [[body [HR _]]|[msg HR]]; [lia| |]; unfold lexer; eauto.
Qed.

Lemma lexer_more_fuel (expression : string) (k : nat) :
  lexer_loop (S (String.length expression) + k) expression 0 []
  = lexer expression.
Proof. apply lexer_loop_fuel; lia. Qed.

Lemma lexer_Return (expression : string) (toks : list token) :
  lexer expression = Return toks ->
  exists body,
    toks = body ++ [(EOF, "EOF")]
    /\ Forall (fun tok => fst tok <> EOF) body
    /\ lexemes body = expression.
Proof.
  intros H.
  destruct (lexer_loop_result (S (String.length expression)) expression 0 [])
    as [[body [HR [Hall Hlex]]]|[msg HR]]; [lia| |];
    unfold lexer in H; rewrite HR in H; [|discriminate].
  injection H as <-. exists body. split; [reflexivity|]. split; [exact Hall|].
  rewrite <- (string_of_list_ascii_of_string (lexemes body)), Hlex.
  apply string_of_list_ascii_of_string.
Qed.

(** The scan reaches [index] with some tokens collected. *)
Lemma scanned_loop (expression : string) (index : nat) :
  scanned expression index ->
  exists tokens,
    lexer expression
    = lexer_loop (S (String.length expression - index)) expression index
        tokens.
Proof.
  induction 1 as [|index e t Hs [tokens IH] Hlt Hm].
  - exists []. unfold lexer. rewrite Nat.sub_0_r. reflexivity.
  - exists (tokens ++ [(t, slice expression index e)]).
    rewrite IH.
    transitivity
      (lexer_loop (String.length expression - index) expression e
         (tokens ++ [(t, slice expression index e)])).
    + cbn [lexer_loop].
      apply Nat.ltb_lt in Hlt. rewrite Hlt, Hm. reflexivity.
    + apply TOKEN_TYPES_match in Hm as [_ Hb].
      apply lexer_loop_fuel; lia.
Qed.

(** ** The pattern of [NUMBER] *)

Lemma plus_digit_hd (fuel : nat) :
  forall s, List.length s < fuel ->
    hd_error (plus_loop (ends Digit) fuel s)
    = match digit_run s with 0 => None | S k => Some (S k) end.
Proof.
  induction fuel as [|fuel IH]; intros s H; [lia|].
  destruct s as [|c s]; [reflexivity|].
  simpl in H. assert (IHs := IH s ltac:(lia)).
  set (body := ends Digit) in *.
  cbn [plus_loop digit_run].
  change (body (c :: s)) with (if is_digit c then [1] else []).
  destruct (is_digit c); [|reflexivity].
  cbn [flat_map skipn]. rewrite app_nil_r.
  destruct (plus_loop body fuel s) as [|m l];
    destruct (digit_run s) as [|k]; simpl in IHs |- *;
    try discriminate; [reflexivity|].
  injection IHs as ->. reflexivity.
Qed.

Lemma ends_Plus_Digit_hd (s : list ascii) :
  hd_error (ends (Plus Digit) s)
  = match digit_run s with 0 => None | S k => Some (S k) end.
Proof. cbn [ends]. apply plus_digit_hd. lia. Qed.

Lemma hd_error_app {A : Type} (l1 l2 : list A) :
  hd_error (l1 ++ l2)
  = match hd_error l1 with Some x => Some x | None => hd_error l2 end.
Proof. destruct l1; reflexivity. Qed.

Lemma hd_error_map {A B : Type} (f : A -> B) (l : list A) :
  hd_error (map f l) = option_map f (hd_error l).
Proof. destruct l; reflexivity. Qed.

Lemma ends_Seq (r1 r2 : regex) (s : list ascii) :
  ends (Seq r1 r2) s
  = flat_map (fun n => map (Nat.add n) (ends r2 (skipn n s))) (ends r1 s).
Proof. reflexivity. Qed.

Lemma ends_Opt (r : regex) (s : list ascii) :
  ends (Opt r) s = ends r s ++ [0].
Proof. reflexivity. Qed.

Lemma ends_Chr (c : ascii) (s : list ascii) :
  ends (Chr c) s
  = match s with
    | x :: _ => if Ascii.eqb x c then [1] else []
    | [] => []
    end.
Proof. reflexivity. Qed.

(** The backtracking matcher on the pattern of [NUMBER] takes the longest
    run of digits and then the longest fraction. *)
Lemma ends_NUMBER_hd (s : list ascii) :
  hd_error (ends NUMBER_pattern s) = number_end s.
Proof.
  unfold NUMBER_pattern, number_end.
  rewrite ends_Seq.
  pose proof (ends_Plus_Digit_hd s) as Hd.
  destruct (ends (Plus Digit) s) as [|n l];
    destruct (digit_run s) as [|k]; cbn [hd_error] in Hd;
    try discriminate; [reflexivity|].
  injection Hd as ->.
  cbn [flat_map].
  rewrite hd_error_app, hd_error_map, ends_Opt, hd_error_app, ends_Seq,
    ends_Chr.
  destruct (skipn (S k) s) as [|c s'].
  - cbn. rewrite Nat.add_0_r. reflexivity.
  - destruct (Ascii.eqb c ".").
    + cbn [flat_map skipn]. rewrite app_nil_r, hd_error_map.
      rewrite ends_Plus_Digit_hd.
      destruct (digit_run s') as [|j]; cbn.
      * rewrite Nat.add_0_r. reflexivity.
      * reflexivity.
    + cbn. rewrite Nat.add_0_r. reflexivity.
Qed.

Lemma digit_run_all (s rest : list ascii) :
  forallb is_digit s = true ->
  digit_run rest = 0 ->
  digit_run (s ++ rest) = List.length s.
Proof.
  induction s as [|c s IH]; simpl; intros H Hrest; [exact Hrest|].
  apply andb_true_iff in H as [-> H]. rewrite IH; auto.
Qed.

Lemma digits_spec (s : string) :
  digits s = true ->
  forallb is_digit (list_ascii_of_string s) = true
  /\ 0 < String.length s.
Proof.
  unfold digits. intros H. apply andb_true_iff in H as [Hne Hall].
  split; [exact Hall|]. destruct s; [discriminate|simpl; lia].
Qed.

(** A match of [NUMBER] at position 0 is the one the [for] loop takes. *)
Lemma first_match_NUMBER (expression : string) (n : nat) :
  number_end (list_ascii_of_string expression) = Some n ->
  first_match TOKEN_TYPES expression 0 = Some (NUMBER, n).
Proof.
  intros H. cbn [first_match TOKEN_TYPES]. unfold rmatch.
  cbn [skipn]. rewrite <- ends_NUMBER_hd in H.
  destruct (ends NUMBER_pattern (list_ascii_of_string expression));
    [discriminate|].
  injection H as ->. reflexivity.
Qed.

(** A text that [NUMBER] matches whole is one [NUMBER] token. *)
Lemma lexer_whole_NUMBER (expression : string) :
  number_end (list_ascii_of_string expression)
  = Some (String.length expression) ->
  0 < String.length expression ->
  lexer expression = Return [(NUMBER, expression); (EOF, "EOF")].
Proof.
  intros H Hpos. apply first_match_NUMBER in H.
  unfold lexer. cbn [lexer_loop].
  destruct (Nat.ltb_spec 0 (String.length expression)) as [_|]; [|lia].
  rewrite H.
  destruct (String.length expression) as [|len] eqn:Hlen; [lia|].
  cbn [lexer_loop]. rewrite Hlen, Nat.ltb_irrefl.
  unfold slice. rewrite Nat.sub_0_r. cbn [skipn].
  rewrite <- Hlen, <- length_list_ascii_of_string, firstn_all.
  rewrite string_of_list_ascii_of_string. reflexivity.
Qed.

Lemma number_end_digits (s : list ascii) :
  forallb is_digit s = true -> 0 < List.length s ->
  number_end s = Some (List.length s).
Proof.
  intros Hall Hpos. unfold number_end.
  pose proof (digit_run_all s [] Hall eq_refl) as Hrun.
  rewrite app_nil_r in Hrun. rewrite Hrun.
  destruct (List.length s) as [|k] eqn:Hlen; [lia|].
  rewrite <- Hlen, skipn_all. reflexivity.
Qed.

Lemma number_end_fraction (s1 s2 : list ascii) :
  forallb is_digit s1 = true -> 0 < List.length s1 ->
  forallb is_digit s2 = true -> 0 < List.length s2 ->
  number_end (s1 ++ "."%char :: s2)
  = Some (List.length (s1 ++ "."%char :: s2)).
Proof.
  intros Hall1 Hpos1 Hall2 Hpos2. unfold number_end.
  rewrite (digit_run_all s1 ("."%char :: s2) Hall1 eq_refl).
  destruct (List.length s1) as [|k] eqn:Hlen1; [lia|].
  rewrite <- Hlen1, skipn_app, skipn_all, Nat.sub_diag.
  cbn [app skipn]. rewrite Ascii.eqb_refl.
  pose proof (digit_run_all s2 [] Hall2 eq_refl) as Hrun.
  rewrite app_nil_r in Hrun. rewrite Hrun.
  destruct (List.length s2) as [|j] eqn:Hlen2; [lia|].
  rewrite length_app. cbn [List.length]. rewrite Hlen2. reflexivity.
Qed.

(** ** Texts of digits and dots that are not numbers *)

Lemma digit_run_stop (s : list ascii) (c : ascii) (s' : list ascii) :
  skipn (digit_run s) s = c :: s' -> is_digit c = false.
Proof.
  induction s as [|x s IH]; simpl; [discriminate|].
  destruct (is_digit x) eqn:E; simpl.
  - exact IH.
  - intros H. injection H as <- _. exact E.
Qed.

Lemma digit_run_le (s : list ascii) : digit_run s <= List.length s.
Proof.
  induction s as [|x s IH]; simpl; [lia|].
  destruct (is_digit x); simpl; lia.
Qed.

(** No pattern starts with a dot. *)
Lemma no_match_at_dot (expression : string) (index : nat) :
  String.get index expression = Some "."%char ->
  no_match_at expression index = true.
Proof.
  rewrite get_nth_error, <- hd_error_skipn. intros H.
  unfold no_match_at, rmatch.
  destruct (skipn index (list_ascii_of_string expression)) as [|c rest];
    [discriminate|].
  injection H as ->. reflexivity.
Qed.

(** The scan that stops at a dot raises on it. *)
Lemma lexer_raises_on_dot (expression : string) (index : nat) :
  scanned expression index ->
  index < String.length expression ->
  String.get index expression = Some "."%char ->
  lexer expression = ValueError "Unexpected character: .".
Proof.
  intros Hs Hlt Hget.
  destruct (scanned_loop expression index Hs) as [tokens ->].
  cbn [lexer_loop].
  apply Nat.ltb_lt in Hlt. rewrite Hlt.
  pose proof (no_match_at_dot _ _ Hget) as Hno.
  apply first_match_None in Hno. rewrite Hno, Hget. reflexivity.
Qed.

(** Where a number ends, a text of digits and dots ends or has a dot. *)
Lemma number_end_next (s : list ascii) (n : nat) :
  forallb (fun c => is_digit c || Ascii.eqb c ".") s = true ->
  number_end s = Some n ->
  n = List.length s \/ (n < List.length s /\ nth_error s n = Some "."%char).
Proof.
  intros Hall H.
  assert (Hdot : forall m c rest,
             skipn m s = c :: rest -> is_digit c = false ->
             m < List.length s /\ nth_error s m = Some "."%char).
  { intros m c rest Hskip Hc.
    assert (Hnth : nth_error s m = Some c)
      by (rewrite <- hd_error_skipn, Hskip; reflexivity).
    split; [apply nth_error_Some; congruence|].
    rewrite forallb_forall in Hall.
    specialize (Hall c (nth_error_In _ _ Hnth)).
    rewrite Hc in Hall. apply Ascii.eqb_eq in Hall. congruence. }
  assert (Hend : forall m, skipn m s = [] -> m <= List.length s ->
                           m = List.length s).
  { intros m Hskip Hle. apply skipn_all_iff in Hskip. lia. }
  unfold number_end in H.
  pose proof (digit_run_le s) as Hle.
  pose proof (digit_run_stop s) as Hstop.
  destruct (digit_run s) as [|k]; [discriminate|].
  destruct (skipn (S k) s) as [|c s'] eqn:Hskip.
  - injection H as <-. left. apply Hend; assumption.
  - specialize (Hstop c s' eq_refl).
    destruct (Ascii.eqb c ".") eqn:Ec.
    + pose proof (digit_run_le s') as Hle'.
      pose proof (digit_run_stop s') as Hstop'.
      assert (Hlen : List.length s = S k + (1 + List.length s')).
      { rewrite <- (firstn_skipn (S k) s) at 1.
        rewrite length_app, length_firstn, Hskip. cbn [List.length]. lia. }
      assert (Hskip' : forall j, skipn (S k + (1 + j)) s = skipn j s').
      { intros j. rewrite (Nat.add_comm (S k)), <- skipn_skipn, Hskip.
        reflexivity. }
      destruct (digit_run s') as [|j].
      * injection H as <-. right. eapply Hdot; eauto.
      * injection H as <-.
        destruct (skipn (S j) s') as [|c' s''] eqn:Hskip2.
        -- left. apply Hend; [|lia].
           change (skipn (S k + (1 + S j)) s = []).
           rewrite Hskip'. exact Hskip2.
        -- right. change (S (k + S (S j))) with (S k + (1 + S j)).
           apply (Hdot _ c' s'').
           ++ rewrite Hskip'. exact Hskip2.
           ++ exact (Hstop' c' s'' eq_refl).
    + injection H as <-. right. eapply Hdot; eauto.
Qed.

(** X6: a non-empty text of digits and dots is one [NUMBER] token, or
    [lexer] raises on a dot: it is never split into several tokens. *)
Lemma lexer_digits_or_dots (expression : string) :
  expression <> "" ->
  digits_or_dots expression = true ->
  lexer expression = Return [(NUMBER, expression); (EOF, "EOF")]
  \/ lexer expression = ValueError "Unexpected character: .".
Proof.
  intros Hne Hall. unfold digits_or_dots in Hall.
  assert (Hpos : 0 < String.length expression)
    by (destruct expression; [contradiction|simpl; lia]).
  assert (Hraise : forall n,
             scanned expression n -> n < String.length expression ->
             String.get n expression = Some "."%char ->
             lexer expression = ValueError "Unexpected character: .").
  { intros n Hs Hlt Hget. apply (lexer_raises_on_dot _ n); assumption. }
  destruct (number_end (list_ascii_of_string expression)) as [n|] eqn:E.
  - destruct (number_end_next _ _ Hall E) as [->|[Hlt Hdot]].
    + left. apply lexer_whole_NUMBER; [|exact Hpos].
      rewrite E, length_list_ascii_of_string. reflexivity.
    + right. rewrite length_list_ascii_of_string in Hlt.
      apply (Hraise n); [|exact Hlt|rewrite get_nth_error; exact Hdot].
      apply (scanned_next expression 0 n NUMBER);
        [constructor|exact Hpos|].
      apply first_match_NUMBER. exact E.
  - right. apply (Hraise 0); [constructor|exact Hpos|].
    unfold number_end in E. rewrite get_nth_error.
    destruct (list_ascii_of_string expression) as [|c l] eqn:El.
    + rewrite <- length_list_ascii_of_string, El in Hpos. simpl in Hpos. lia.
    + cbn [digit_run] in E. cbn [forallb] in Hall.
      destruct (is_digit c); [simpl in E|].
      * destruct (skipn (digit_run l) l) as [|c' l'];
          [discriminate|].
        destruct (Ascii.eqb c' "."); [|discriminate].
        destruct (digit_run l'); discriminate.
      * apply andb_true_iff in Hall as [Hc _]. cbn [orb] in Hc.
        apply Ascii.eqb_eq in Hc. subst c. reflexivity.
Qed.

(** * The claims on the lexer *)

(** C5, as stated, fails: a text of digits and dots need not be a number.
    ["."], ["1."] and ["1.2.3"] consist of digits and ['.'] only, and on
    each of them [lexer] raises [ValueError] on a dot. *)
Lemma lexer_digits_and_dots_counterexample :
  digits_or_dots "." = true
  /\ lexer "." = ValueError "Unexpected character: ."
  /\ digits_or_dots "1." = true
  /\ lexer "1." = ValueError "Unexpected character: ."
  /\ digits_or_dots "1.2.3" = true
  /\ lexer "1.2.3" = ValueError "Unexpected character: .".
Proof. repeat split; reflexivity. Qed.

(** C5, amended: on a non-empty run of digits, alone or followed by one
    ['.'] and another non-empty run of digits, [lexer] returns exactly one
    [NUMBER] token, whose lexeme is the whole text, and then [EOF]. *)
Theorem lexer_number (ip fp : string) :
  digits ip = true ->
  lexer ip = Return [(NUMBER, ip); (EOF, "EOF")]
  /\ (digits fp = true ->
      lexer (ip ++ "." ++ fp)
      = Return [(NUMBER, (ip ++ "." ++ fp)%string); (EOF, "EOF")]).
Proof.
  intros Hip. apply digits_spec in Hip as [Hall1 Hpos1].
  rewrite <- length_list_ascii_of_string in Hpos1.
  split.
  - apply lexer_whole_NUMBER.
    + rewrite <- length_list_ascii_of_string.
      apply number_end_digits; assumption.
    + rewrite <- length_list_ascii_of_string. exact Hpos1.
  - intros Hfp. apply digits_spec in Hfp as [Hall2 Hpos2].
    rewrite <- length_list_ascii_of_string in Hpos2.
    apply lexer_whole_NUMBER.
    + rewrite <- length_list_ascii_of_string.
      rewrite list_ascii_of_string_app. cbn [append list_ascii_of_string].
      apply number_end_fraction; assumption.
    + rewrite <- length_list_ascii_of_string, list_ascii_of_string_app,
        length_app. lia.
Qed.

Lemma lexer_number_witness :
  digits "2024" = true
  /\ digits "75" = true
  /\ lexer "2024" = Return [(NUMBER, "2024"); (EOF, "EOF")]
  /\ lexer "2024.75" = Return [(NUMBER, "2024.75"); (EOF, "EOF")].
Proof.
  split; [reflexivity|]. split; [reflexivity|].
  split.
  - exact (proj1 (lexer_number "2024" "75" eq_refl)).
  - exact (proj2 (lexer_number "2024" "75" eq_refl) eq_refl).
Defined.

(** Every way [lexer] raises: the scan stopped at a position where no
    pattern matches, and the message names the character there. *)
Lemma lexer_loop_ValueError (fuel : nat) (expression : string) :
  forall (index : nat) (tokens : list token) (msg : string),
    scanned expression index ->
    lexer_loop fuel expression index tokens = ValueError msg ->
    exists i c,
      scanned expression i /\ i < String.length expression
      /\ no_match_at expression i = true
      /\ String.get i expression = Some c
      /\ msg = ("Unexpected character: " ++ String c "")%string.
Proof.
  induction fuel as [|fuel IH]; intros index tokens msg Hs H;
    [discriminate|].
  cbn [lexer_loop] in H.
  destruct (Nat.ltb index (String.length expression)) eqn:Hlt;
    [|discriminate].
  apply Nat.ltb_lt in Hlt.
  destruct (first_match TOKEN_TYPES expression index) as [[t e]|] eqn:E.
  - eapply IH; [|exact H]. econstructor; eauto.
  - destruct (String.get index expression) as [c|] eqn:G; [|discriminate].
    injection H as <-. exists index, c.
    repeat split; auto. apply first_match_None. exact E.
Qed.

(** C6, as stated, fails twice over.  The message of the error names the
    character and nothing else: ["@"] and ["2@"] stop at positions 0 and
    1 and raise the same error, so no position can be read off it.  And a
    position where no pattern matches need not stop the scan: no pattern
    matches at position 1 of ["1.5"], inside the number, and [lexer]
    returns. *)
Lemma lexer_error_position_counterexample :
  (scanned "@" 0 /\ no_match_at "@" 0 = true
   /\ scanned "2@" 1 /\ no_match_at "2@" 1 = true
   /\ lexer "@" = ValueError "Unexpected character: @"
   /\ lexer "2@" = ValueError "Unexpected character: @"
   /\ ~ exists position_of : outcome (list token) -> nat,
        position_of (lexer "@") = 0 /\ position_of (lexer "2@") = 1)
  /\ (no_match_at "1.5" 1 = true
      /\ lexer "1.5" = Return [(NUMBER, "1.5"); (EOF, "EOF")]).
Proof.
  split; [|split; reflexivity].
  split; [constructor|]. split; [reflexivity|].
  split.
  { apply (scanned_next "2@" 0 1 NUMBER);
      [constructor|simpl; lia|reflexivity]. }
  split; [reflexivity|]. split; [reflexivity|]. split; [reflexivity|].
  intros [position_of [H0 H1]].
  change (lexer "2@") with (lexer "@") in H1. congruence.
Qed.

(** C6, amended: when the scan stops at a position where no pattern
    matches, [lexer] raises [ValueError] with the message
    ["Unexpected character: c"], [c] being the character at that position,
    and returns no tokens.  The error carries the character only. *)
Theorem lexer_unexpected_character (expression : string) (index : nat) :
  scanned expression index ->
  index < String.length expression ->
  no_match_at expression index = true ->
  exists c,
    String.get index expression = Some c
    /\ lexer expression
       = ValueError ("Unexpected character: " ++ String c "").
Proof.
  intros Hs Hlt Hno.
  destruct (scanned_loop expression index Hs) as [tokens ->].
  destruct (get_in_range expression index Hlt) as [c Hc].
  exists c. split; [exact Hc|].
  cbn [lexer_loop].
  apply Nat.ltb_lt in Hlt. rewrite Hlt.
  apply first_match_None in Hno. rewrite Hno, Hc. reflexivity.
Qed.

Lemma scanned_2at3 : scanned "2@3" 1.
Proof.
  apply (scanned_next "2@3" 0 1 NUMBER).
  - apply scanned_start.
  - simpl. lia.
  - reflexivity.
Defined.

Lemma lexer_unexpected_character_witness :
  exists c,
    String.get 1 "2@3" = Some c
    /\ lexer "2@3" = ValueError ("Unexpected character: " ++ String c "").
Proof.
  apply (lexer_unexpected_character "2@3" 1).
  - exact scanned_2at3.
  - simpl. lia.
  - reflexivity.
Defined.

(** The converse: [lexer] raises in no other way. *)
Lemma lexer_ValueError (expression msg : string) :
  lexer expression = ValueError msg ->
  exists i c,
    scanned expression i /\ i < String.length expression
    /\ no_match_at expression i = true
    /\ String.get i expression = Some c
    /\ msg = ("Unexpected character: " ++ String c "")%string.
Proof.
  unfold lexer. apply lexer_loop_ValueError. constructor.
Qed.

(** C8: the tokens [lexer] returns are not empty, the last of them is the
    [EOF] token and no other has type [EOF]; on the empty text they are
    just [EOF]. *)
Theorem lexer_one_EOF_at_end :
  (forall (expression : string) (toks : list token),
      lexer expression = Return toks ->
      toks <> []
      /\ last toks (NUMBER, "") = (EOF, "EOF")
      /\ Forall (fun tok => fst tok <> EOF) (removelast toks))
  /\ lexer "" = Return [(EOF, "EOF")].
Proof.
  split; [|reflexivity].
  intros expression toks H.
  apply lexer_Return in H as [body [-> [Hall _]]].
  split; [|split].
  - intros E. apply app_eq_nil in E as [_ E]. discriminate.
  - apply last_last.
  - rewrite removelast_last. exact Hall.
Qed.

Lemma lexer_one_EOF_at_end_witness :
  [(NUMBER, "2"); (PLUS, "+"); (NUMBER, "3"); (EOF, "EOF")] <> []
  /\ last [(NUMBER, "2"); (PLUS, "+"); (NUMBER, "3"); (EOF, "EOF")]
       (NUMBER, "") = (EOF, "EOF")
  /\ Forall (fun tok : token => fst tok <> EOF)
       (removelast
          [(NUMBER, "2"); (PLUS, "+"); (NUMBER, "3"); (EOF, "EOF")]).
Proof.
  exact (proj1 lexer_one_EOF_at_end "2+3" _ eq_refl).
Defined.

(** C9: the lexemes of the tokens [lexer] returns, the final [EOF] left
    out, concatenate to the text: the scan skips, repeats and alters
    nothing, white space included (it is never matched, so a text that
    holds some is not tokenised at all). *)
Theorem lexer_lexemes (expression : string) (toks : list token) :
  lexer expression = Return toks ->
  lexemes (removelast toks) = expression.
Proof.
  intros H. apply lexer_Return in H as [body [-> [_ Hlex]]].
  rewrite removelast_last. exact Hlex.
Qed.

Lemma lexer_lexemes_witness :
  lexemes
    (removelast
       [(NUMBER, "12.5"); (MULTIPLY, "*"); (SIN, "sin"); (LPAREN, "(");
        (NUMBER, "3"); (RPAREN, ")"); (EOF, "EOF")])
  = "12.5*sin(3)".
Proof.
  exact (lexer_lexemes "12.5*sin(3)" _ eq_refl).
Defined.

(** * Properties of the parser *)

(** ** Left recursion in [parse_F]

    On [CARET] and on [FACTORIAL] [parse_F] logs a step and calls itself
    before it consumes anything: the call it makes sees the same token. *)

Lemma parse_F_left_recursion (fuel : nat) :
  forall self,
    fst (current_token self) = CARET
    \/ fst (current_token self) = FACTORIAL ->
    fst (parse_F fuel self) = OutOfFuel.
Proof.
  induction fuel as [|fuel IH]; intros self H; [reflexivity|].
  cbn [parse_F]. unfold bind at 1. cbn [current_type].
  destruct H as [H|H]; rewrite H.
  - unfold bind at 1. cbn [append_step]. unfold bind at 1.
    match goal with |- context [parse_F fuel ?st] =>
      specialize (IH st (or_introl H));
      destruct (parse_F fuel st) as [o st']
    end.
    cbn [fst] in IH. rewrite IH. reflexivity.
  - unfold bind at 1. cbn [append_step]. unfold bind at 1.
    match goal with |- context [parse_F fuel ?st] =>
      specialize (IH st (or_intror H));
      destruct (parse_F fuel st) as [o st']
    end.
    cbn [fst] in IH. rewrite IH. reflexivity.
Qed.

Lemma parse_T_left_recursion (fuel : nat) (self : Parser) :
  fst (current_token self) = CARET
  \/ fst (current_token self) = FACTORIAL ->
  fst (parse_T fuel self) = OutOfFuel.
Proof.
  intros H. destruct fuel as [|fuel]; [reflexivity|].
  cbn [parse_T]. unfold bind at 1. cbn [append_step]. unfold bind at 1.
  match goal with |- context [parse_F fuel ?st] =>
    pose proof (parse_F_left_recursion fuel st H) as HF;
    destruct (parse_F fuel st) as [o st']
  end.
  cbn [fst] in HF. rewrite HF. reflexivity.
Qed.

Lemma parse_E_left_recursion (fuel : nat) (self : Parser) :
  fst (current_token self) = CARET
  \/ fst (current_token self) = FACTORIAL ->
  fst (parse_E fuel self) = OutOfFuel.
Proof.
  intros H. destruct fuel as [|fuel]; [reflexivity|].
  cbn [parse_E]. unfold bind at 1. cbn [append_step]. unfold bind at 1.
  match goal with |- context [parse_T fuel ?st] =>
    pose proof (parse_T_left_recursion fuel st H) as HT;
    destruct (parse_T fuel st) as [o st']
  end.
  cbn [fst] in HT. rewrite HT. reflexivity.
Qed.

Lemma parse_left_recursion (fuel : nat) (self : Parser) :
  fst (current_token self) = CARET
  \/ fst (current_token self) = FACTORIAL ->
  fst (parse fuel self) = OutOfFuel.
Proof.
  intros H. destruct fuel as [|fuel]; [reflexivity|].
  cbn [parse]. unfold bind at 1.
  pose proof (parse_E_left_recursion fuel self H) as HE.
  destruct (parse_E fuel self) as [o st'].
  cbn [fst] in HE. rewrite HE. reflexivity.
Qed.

(** A token list that starts with [CARET] or [FACTORIAL] is never parsed,
    whatever the depth allowed. *)
Lemma run_parse_left_recursion (fuel : nat) (tok : token)
    (toks : list token) :
  fst tok = CARET \/ fst tok = FACTORIAL ->
  run_parse fuel (tok :: toks) = OutOfFuel.
Proof.
  intros H. unfold run_parse. cbn [__init__ nth_error].
  apply parse_left_recursion. exact H.
Qed.

(** ** The current token is always defined *)

Lemma safe_ret {A : Type} (a : A) : safe (ret a).
Proof.
  intros self H. cbn. repeat split; try assumption; discriminate.
Qed.

Lemma safe_out_of_fuel {A : Type} : safe (@out_of_fuel A).
Proof.
  intros self H. cbn. repeat split; try assumption; discriminate.
Qed.

Lemma safe_current_type : safe current_type.
Proof.
  intros self H. cbn. repeat split; try assumption; discriminate.
Qed.

Lemma safe_append_step (step : string) : safe (append_step step).
Proof.
  intros self H. cbn. repeat split; try assumption; discriminate.
Qed.

Lemma safe_unexpected_token {A : Type} : safe (@unexpected_token A).
Proof.
  intros self H. cbn. repeat split; try assumption; try discriminate.
  intros msg E. injection E as <-. left. reflexivity.
Qed.

Lemma safe_bind {A B : Type} (m : M A) (k : A -> M B) :
  safe m -> (forall a, safe (k a)) -> safe (bind m k).
Proof.
  intros Hm Hk self H. unfold bind.
  destruct (Hm self H) as [Hr [Ht [Hd Hmsg]]].
  destruct (m self) as [[a| msg| |] self']; cbn [fst snd] in *.
  - destruct (Hk a self' Hd) as [Hr' [Ht' [Hd' Hmsg']]].
    repeat split; try assumption. congruence.
  - repeat split; try assumption; try discriminate.
    intros msg0 E. injection E as <-. apply Hmsg. reflexivity.
  - contradiction.
  - repeat split; try assumption; discriminate.
Qed.

Lemma safe_advance : safe advance.
Proof.
  intros self H. unfold current_defined in H. unfold advance.
  destruct (Nat.ltb_spec (index self + 1) (List.length (tokens self)))
    as [Hlt|Hge].
  - destruct (nth_error (tokens self) (index self + 1)) as [t|] eqn:E.
    + cbn. repeat split; try discriminate.
      unfold current_defined. cbn.
      rewrite Nat.min_l by lia. exact E.
    + apply nth_error_None in E. lia.
  - cbn. repeat split; try discriminate.
    unfold current_defined. cbn.
    rewrite Nat.min_r by lia. rewrite Nat.min_r in H by lia. exact H.
Qed.

Lemma safe_match_ (token_type : token_type) : safe (match_ token_type).
Proof.
  intros self H. unfold match_.
  destruct (token_type_eqb (fst (current_token self)) token_type).
  - apply (safe_bind advance (fun _ => ret (snd (current_token self))));
      [apply safe_advance|intros; apply safe_ret|exact H].
  - cbn. repeat split; try assumption; try discriminate.
    intros msg E. injection E as <-. right. exists token_type. reflexivity.
Qed.

Create HintDb safe.
#[local] Hint Resolve safe_ret safe_out_of_fuel safe_current_type
  safe_append_step safe_unexpected_token safe_advance safe_match_ : safe.

(** Splits a method into its calls, down to those in the database. *)
Ltac safe_steps :=
  repeat first
    [ apply safe_bind; [|intros ?]
    | match goal with
      | |- safe (match ?t with _ => _ end) => destruct t
      end
    | solve [auto with safe] ].

Lemma safe_parse_rules (fuel : nat) :
  safe (parse_E fuel)
  /\ (forall left, safe (parse_E_PRIME fuel left))
  /\ safe (parse_T fuel)
  /\ (forall left, safe (parse_T_PRIME fuel left))
  /\ safe (parse_F fuel).
Proof.
  induction fuel as [|fuel [IHE [IHE' [IHT [IHT' IHF]]]]].
  - split; [|split; [|split; [|split]]]; intros; apply safe_out_of_fuel.
  - split; [|split; [|split; [|split]]]; intros;
      cbn [parse_E parse_E_PRIME parse_T parse_T_PRIME parse_F];
      safe_steps.
Qed.

Lemma safe_parse (fuel : nat) : safe (parse fuel).
Proof.
  destruct fuel as [|fuel]; [apply safe_out_of_fuel|].
  destruct (safe_parse_rules fuel) as [HE _].
  cbn [parse]. safe_steps.
  intros self H. cbn. repeat split; try assumption; discriminate.
Qed.

Lemma token_type_eqb_eq (a b : token_type) :
  token_type_eqb a b = true -> a = b.
Proof. destruct a, b; simpl; intros H; try reflexivity; discriminate. Qed.

Lemma EOF_terminated_last (toks : list token) :
  EOF_terminated toks = true ->
  exists body tok, toks = body ++ [tok] /\ fst tok = EOF.
Proof.
  unfold EOF_terminated. intros H.
  destruct (rev toks) as [|tok l] eqn:E; [discriminate|].
  exists (rev l), tok. split.
  - rewrite <- (rev_involutive toks), E. reflexivity.
  - apply token_type_eqb_eq. exact H.
Qed.

(** On an [EOF]-terminated list the token read at the end is [EOF]. *)
Lemma at_end_EOF (self : Parser) :
  EOF_terminated (tokens self) = true ->
  current_defined self -> at_end self ->
  fst (current_token self) = EOF.
Proof.
  intros Hterm Hdef Hend.
  apply EOF_terminated_last in Hterm as [body [tok [Htoks Htok]]].
  unfold current_defined, at_end in *. rewrite Htoks in *.
  rewrite length_app in *. cbn [List.length] in *.
  rewrite Nat.min_r in Hdef by lia.
  replace (List.length body + 1 - 1) with (List.length body) in Hdef by lia.
  rewrite nth_error_app2, Nat.sub_diag in Hdef by lia.
  injection Hdef as <-. exact Htok.
Qed.

(** ** Termination away from the left recursion

    On a token list without [CARET] and [FACTORIAL] every call consumes a
    token before it recurses, or returns: with [r] tokens left before the
    final [EOF], [parse_F] and [parse_T_PRIME] need depth [3r+1],
    [parse_T] and [parse_E_PRIME] depth [3r+2] and [parse_E] depth
    [3r+3]. *)

Section Termination.

Variable toks : list token.
Hypothesis toks_EOF : EOF_terminated toks = true.
Hypothesis toks_free : operator_free toks = true.

Lemma returns_ret {A : Type} (a : A) (r : nat) :
  returns_within toks (ret a) r.
Proof. intros self H. cbn. split; [discriminate|eauto]. Qed.

Lemma returns_append_step (step : string) (r : nat) :
  returns_within toks (append_step step) r.
Proof. intros self H. cbn. split; [discriminate|]. exists r. split; auto. Qed.

Lemma returns_unexpected_token {A : Type} (r : nat) :
  returns_within toks (@unexpected_token A) r.
Proof. intros self H. cbn. split; [discriminate|eauto]. Qed.

Lemma returns_bind {A B : Type} (m : M A) (k : A -> M B) (r : nat) :
  returns_within toks m r ->
  (forall a r', r' <= r -> returns_within toks (k a) r') ->
  returns_within toks (bind m k) r.
Proof.
  intros Hm Hk self H. unfold bind.
  destruct (Hm self H) as [Hr [r' [Hle Hrem]]].
  destruct (m self) as [[a| msg| |] self']; cbn [fst snd] in *.
  - destruct (Hk a r' Hle self' Hrem) as [Hr' [r'' [Hle' Hrem']]].
    split; [exact Hr'|]. exists r''. split; [lia|exact Hrem'].
  - split; [discriminate|eauto].
  - split; [discriminate|eauto].
  - contradiction.
Qed.

Lemma returns_consume {A B : Type} (m : M A) (k : A -> M B) (r : nat) :
  consumes_one toks m r ->
  (forall a, 1 <= r -> returns_within toks (k a) (r - 1)) ->
  returns_within toks (bind m k) r.
Proof.
  intros Hm Hk self H. unfold bind.
  destruct (Hm self H) as [[msg ->]|[a [self' [-> [Hpos Hrem]]]]].
  - cbn. split; [discriminate|eauto].
  - destruct (Hk a Hpos self' Hrem) as [Hr' [r'' [Hle' Hrem']]].
    split; [exact Hr'|]. exists r''. split; [lia|exact Hrem'].
Qed.

(** The dispatch on the type of the current token never sees [CARET] or
    [FACTORIAL]. *)
Lemma returns_dispatch {A : Type} (k : token_type -> M A) (r : nat) :
  (forall t, t <> CARET -> t <> FACTORIAL -> returns_within toks (k t) r) ->
  returns_within toks (bind current_type k) r.
Proof.
  intros Hk self H. unfold bind, current_type.
  apply Hk; [| |exact H]; intros E;
    destruct H as [_ [_ Hcur]]; apply nth_error_In in Hcur;
    unfold operator_free in toks_free;
    rewrite forallb_forall in toks_free;
    specialize (toks_free _ Hcur); rewrite E in toks_free; discriminate.
Qed.

Lemma consumes_match_ (token_type : token_type) (r : nat) :
  token_type <> EOF -> consumes_one toks (match_ token_type) r.
Proof.
  intros Hne self [Htoks [Hidx Hcur]]. unfold match_.
  destruct (token_type_eqb (fst (current_token self)) token_type) eqn:E.
  - right. apply token_type_eqb_eq in E.
    destruct (EOF_terminated_last toks toks_EOF) as [body [tok [Hb Htok]]].
    assert (Hlen : List.length toks = List.length body + 1)
      by (rewrite Hb, length_app; reflexivity).
    assert (Hpos : 1 <= r).
    { destruct r as [|r]; [|lia]. exfalso.
      rewrite Hb, nth_error_app2 in Hcur by lia.
      replace (index self - List.length body) with 0 in Hcur by lia.
      injection Hcur as Hcur. congruence. }
    destruct (nth_error toks (index self + 1)) as [t|] eqn:Hnext;
      [|apply nth_error_None in Hnext; lia].
    exists (snd (current_token self)).
    eexists. split; [|split; [exact Hpos|]].
    + unfold bind, advance, ret. rewrite Htoks.
      destruct (Nat.ltb_spec (index self + 1) (List.length toks)); [|lia].
      rewrite Hnext. reflexivity.
    + unfold remaining. cbn. repeat split; [lia|exact Hnext].
  - left. eexists. reflexivity.
Qed.

(** Splits a method into its calls; what is left are the recursive calls. *)
Ltac returns_steps :=
  repeat first
    [ apply returns_ret
    | apply returns_append_step
    | apply returns_unexpected_token
    | apply returns_dispatch; intros [] ? ?; try contradiction
    | apply returns_consume;
      [apply consumes_match_; discriminate|intros ? ?]
    | apply returns_bind; [|intros ? ? ?] ].

Lemma parse_rules_return (fuel : nat) :
  forall r,
    (3 * r + 3 <= fuel -> returns_within toks (parse_E fuel) r)
    /\ (3 * r + 2 <= fuel ->
        forall left, returns_within toks (parse_E_PRIME fuel left) r)
    /\ (3 * r + 2 <= fuel -> returns_within toks (parse_T fuel) r)
    /\ (3 * r + 1 <= fuel ->
        forall left, returns_within toks (parse_T_PRIME fuel left) r)
    /\ (3 * r + 1 <= fuel -> returns_within toks (parse_F fuel) r).
Proof.
  induction fuel as [|fuel IH]; intros r.
  - split; [|split; [|split; [|split]]]; intros; lia.
  - split; [|split; [|split; [|split]]]; intros;
      cbn [parse_E parse_E_PRIME parse_T parse_T_PRIME parse_F];
      returns_steps;
      match goal with
      | |- returns_within _ _ ?r' =>
          destruct (IH r') as [HE [HE' [HT [HT' HF]]]];
          first [apply HE|apply HE'|apply HT|apply HT'|apply HF]; lia
      end.
Qed.

Lemma parse_returns (fuel r : nat) :
  3 * r + 4 <= fuel -> returns_within toks (parse fuel) r.
Proof.
  intros H. destruct fuel as [|fuel]; [lia|].
  cbn [parse]. apply returns_bind.
  - apply parse_rules_return. lia.
  - intros ast r' Hle self Hrem. unfold bind, current_type.
    destruct (negb (token_type_eqb (fst (current_token self)) EOF)).
    + apply returns_unexpected_token. exact Hrem.
    + cbn. split; [discriminate|eauto].
Qed.

End Termination.

(** * The claims on the parser *)

(** C7: ["2+3*4"] parses to [+(2, *(3,4))]: the product is the right child
    of the sum.  Six nested calls are enough, and more change nothing. *)
Theorem parse_sum_of_product (k : nat) :
  analyse (6 + k) "2+3*4"
  = Return
      (mkASTNode "+"
         [mkASTNode "2" [];
          mkASTNode "*" [mkASTNode "3" []; mkASTNode "4" []]],
       ["E -> T E'"; "T -> F T'"; "F -> NUMBER"; "T' -> ε";
        "E' -> + T E'"; "T -> F T'"; "F -> NUMBER"; "T' -> * F T'";
        "F -> NUMBER"; "T' -> ε"; "E' -> ε"]).
Proof. reflexivity. Qed.

(** C1 does not hold of the code: on ["2^3^4"] [parse_F] returns the leaf
    [2] without looking at the [CARET] that follows, [parse_T_PRIME] and
    [parse_E_PRIME] take their empty productions, and [parse] raises on
    the token that is left.  No depth of calls gives a tree. *)
Theorem parse_power_tower :
  (forall k,
      analyse (4 + k) "2^3^4"
      = ValueError "Syntax Error: Unexpected token CARET")
  /\ (forall fuel result, analyse fuel "2^3^4" <> Return result).
Proof.
  assert (H : forall k,
             analyse (4 + k) "2^3^4"
             = ValueError "Syntax Error: Unexpected token CARET")
    by (intros k; reflexivity).
  split; [exact H|].
  intros fuel result.
  destruct fuel as [|[|[|[|k]]]]; vm_compute; discriminate.
Qed.

(** C2 does not hold of the code: on ["5!"] the leaf [5] is returned and
    [parse] raises on the [FACTORIAL] that is left. *)
Theorem parse_factorial :
  (forall k,
      analyse (4 + k) "5!"
      = ValueError "Syntax Error: Unexpected token FACTORIAL")
  /\ (forall fuel result, analyse fuel "5!" <> Return result).
Proof.
  assert (H : forall k,
             analyse (4 + k) "5!"
             = ValueError "Syntax Error: Unexpected token FACTORIAL")
    by (intros k; reflexivity).
  split; [exact H|].
  intros fuel result.
  destruct fuel as [|[|[|[|k]]]]; vm_compute; discriminate.
Qed.

(** C3 does not hold of the code: with [CARET] or [FACTORIAL] as the
    token at its entry, [parse_F] calls itself on the same token without
    end, so on ["^2"] and ["!5"] no [ValueError] is ever raised, whatever
    the depth allowed. *)
Theorem parse_F_operator_at_entry (fuel : nat) :
  analyse fuel "^2" = OutOfFuel /\ analyse fuel "!5" = OutOfFuel.
Proof.
  unfold analyse.
  change (lexer "^2")
    with (Return [(CARET, "^"); (NUMBER, "2"); (EOF, "EOF")]).
  change (lexer "!5")
    with (Return [(FACTORIAL, "!"); (NUMBER, "5"); (EOF, "EOF")]).
  split; apply run_parse_left_recursion; [left|right]; reflexivity.
Qed.

(** C4 does not hold of the code: ["2*^3"] is tokenised, and the parse of
    its tokens reaches [parse_F] on the [CARET], which recurses without
    consuming; no depth of calls is enough for [parse] to return or to
    raise. *)
Theorem parse_does_not_terminate (fuel : nat) :
  lexer "2*^3"
  = Return [(NUMBER, "2"); (MULTIPLY, "*"); (CARET, "^"); (NUMBER, "3");
            (EOF, "EOF")]
  /\ analyse fuel "2*^3" = OutOfFuel.
Proof.
  split; [reflexivity|].
  unfold analyse.
  change (lexer "2*^3")
    with (Return [(NUMBER, "2"); (MULTIPLY, "*"); (CARET, "^");
                  (NUMBER, "3"); (EOF, "EOF")]).
  destruct fuel as [|[|[|[|fuel]]]]; try reflexivity.
  unfold run_parse. cbn [__init__ nth_error].
  cbn [parse parse_E parse_T parse_F parse_T_PRIME].
  cbv [bind append_step current_type match_ advance ret].
  cbn.
  match goal with |- context [parse_F fuel ?st] =>
    pose proof (parse_F_left_recursion fuel st (or_introl eq_refl)) as HF;
    destruct (parse_F fuel st) as [o st']
  end.
  cbn [fst] in HF. rewrite HF. reflexivity.
Qed.

(** C10: on an [EOF]-terminated token list [current_token] is always an
    element of the list.  The parser is built with the first token as
    current; [advance], [match] and every [parse_*] rule, at any depth,
    keep the token list, leave [current_token] defined and make no access
    out of range, and so does a whole run of [parse]; with [index] at the
    final [EOF], [advance] increments [index] and leaves [current_token]
    at [EOF]; and a syntax error raised when the input is used up names
    [EOF] as the token found. *)
Theorem current_token_always_defined (toks : list token) :
  EOF_terminated toks = true ->
  (exists self,
      __init__ toks = Return self
      /\ tokens self = toks /\ index self = 0 /\ current_defined self)
  /\ (safe advance
      /\ (forall token_type, safe (match_ token_type))
      /\ (forall fuel left,
             safe (parse_E fuel) /\ safe (parse_E_PRIME fuel left)
             /\ safe (parse_T fuel) /\ safe (parse_T_PRIME fuel left)
             /\ safe (parse_F fuel) /\ safe (parse fuel)))
  /\ (forall self,
         tokens self = toks -> current_defined self -> at_end self ->
         fst (current_token self) = EOF
         /\ advance self
            = (Return tt,
               {| tokens := toks;
                  index := index self + 1;
                  current_token := current_token self;
                  derivation_steps := derivation_steps self |}))
  /\ (forall fuel self,
         __init__ toks = Return self ->
         fst (parse fuel self) <> IndexError
         /\ current_defined (snd (parse fuel self))
         /\ (forall msg,
                fst (parse fuel self) = ValueError msg ->
                at_end (snd (parse fuel self)) ->
                msg = "Syntax Error: Unexpected token EOF"
                \/ exists token_type,
                    msg = ("Syntax Error: Expected " ++ type_name token_type
                           ++ ", found EOF")%string))
  /\ (forall self,
         fst (current_token self) = EOF ->
         (forall fuel,
             parse_F (S fuel) self
             = (ValueError "Syntax Error: Unexpected token EOF", self))
         /\ (forall token_type,
                token_type <> EOF ->
                match_ token_type self
                = (ValueError
                     ("Syntax Error: Expected " ++ type_name token_type
                      ++ ", found EOF"), self))).
Proof.
  intros Hterm.
  assert (Hinit : exists self,
             __init__ toks = Return self
             /\ tokens self = toks /\ index self = 0
             /\ current_defined self).
  { destruct (EOF_terminated_last toks Hterm) as [body [tok [Htoks _]]].
    unfold __init__.
    destruct toks as [|t toks']; [destruct body; discriminate|].
    eexists. split; [reflexivity|]. repeat split. }
  split; [exact Hinit|]. split; [|split; [|split]].
  - split; [apply safe_advance|]. split; [apply safe_match_|].
    intros fuel left.
    destruct (safe_parse_rules fuel) as [HE [HE' [HT [HT' HF]]]].
    repeat (split; [solve [auto]|]). apply safe_parse.
  - intros self Htoks Hdef Hend. subst toks.
    split; [apply at_end_EOF; assumption|].
    unfold advance, at_end in *.
    destruct (Nat.ltb_spec (index self + 1) (List.length (tokens self)));
      [lia|reflexivity].
  - intros fuel self Hself.
    destruct Hinit as [self0 [Hself0 [Htoks [_ Hdef]]]].
    rewrite Hself in Hself0. injection Hself0 as ->.
    destruct (safe_parse fuel self0 Hdef) as [Hr [Ht [Hd Hmsg]]].
    split; [exact Hr|]. split; [exact Hd|].
    intros msg Emsg Hend.
    assert (HEOF : fst (current_token (snd (parse fuel self0))) = EOF).
    { apply at_end_EOF; [|assumption|assumption].
      rewrite Ht, Htoks. exact Hterm. }
    destruct (Hmsg msg Emsg) as [->|[token_type ->]]; rewrite HEOF.
    + left. reflexivity.
    + right. exists token_type. reflexivity.
  - intros self HEOF. split.
    + intros fuel. cbn [parse_F]. unfold bind, current_type.
      rewrite HEOF. unfold unexpected_token, raise. rewrite HEOF.
      reflexivity.
    + intros token_type Hne. unfold match_, raise. rewrite HEOF.
      destruct token_type; try reflexivity. contradiction.
Qed.

Lemma current_token_always_defined_witness :
  EOF_terminated [(NUMBER, "2"); (PLUS, "+"); (EOF, "EOF")] = true
  /\ exists self,
      __init__ [(NUMBER, "2"); (PLUS, "+"); (EOF, "EOF")] = Return self
      /\ tokens self = [(NUMBER, "2"); (PLUS, "+"); (EOF, "EOF")]
      /\ index self = 0 /\ current_defined self.
Proof.
  split; [reflexivity|].
  exact (proj1 (current_token_always_defined
                  [(NUMBER, "2"); (PLUS, "+"); (EOF, "EOF")] eq_refl)).
Defined.

(** The run on ["2+"]: the input ends where a term is expected, and the
    error names [EOF]. *)
Example premature_end (k : nat) :
  analyse (5 + k) "2+" = ValueError "Syntax Error: Unexpected token EOF".
Proof. reflexivity. Qed.

(** Without [CARET] and [FACTORIAL] among the tokens the input does bound
    the recursion: [parse] returns a tree and its log or raises a syntax
    error, within a depth of three calls per token. *)
Theorem parse_terminates_operator_free (toks : list token) (k : nat) :
  EOF_terminated toks = true ->
  operator_free toks = true ->
  (exists result,
      run_parse (3 * List.length toks + 1 + k) toks = Return result)
  \/ (exists msg,
        run_parse (3 * List.length toks + 1 + k) toks = ValueError msg).
Proof.
  intros Hterm Hfree.
  destruct toks as [|t toks'] eqn:Etoks; [discriminate|]. rewrite <- Etoks in *.
  assert (Hlen : 1 <= List.length toks) by (rewrite Etoks; simpl; lia).
  set (self := {| tokens := toks; index := 0; current_token := t;
                  derivation_steps := [] |}).
  assert (Hinit : __init__ toks = Return self)
    by (unfold __init__, self; rewrite Etoks; reflexivity).
  assert (Hrem : remaining toks self (List.length toks - 1)).
  { unfold remaining. cbn. repeat split; [lia|].
    rewrite Etoks. reflexivity. }
  assert (Hdef : current_defined self).
  { unfold current_defined. cbn. rewrite Etoks. reflexivity. }
  destruct (safe_parse (3 * List.length toks + 1 + k) self Hdef)
    as [Hidxerr _].
  destruct (parse_returns toks Hterm Hfree
              (3 * List.length toks + 1 + k) (List.length toks - 1)
              ltac:(lia) self Hrem) as [Hfuel _].
  unfold run_parse. rewrite Hinit.
  destruct (fst (parse (3 * List.length toks + 1 + k) self))
    as [result|msg| |]; eauto; contradiction.
Qed.


(** * More on the lexer *)

Lemma firstn_add {A : Type} (n m : nat) (l : list A) :
  firstn (n + m) l = firstn n l ++ firstn m (skipn n l).
Proof.
  revert l. induction n as [|n IH]; intros l; [reflexivity|].
  destruct l as [|x l]; cbn [Nat.add firstn skipn app].
  - rewrite firstn_nil. reflexivity.
  - rewrite IH. reflexivity.
Qed.

Lemma rmatch_In (r : regex) (expression : string) (index e : nat) :
  rmatch r expression index = Some e ->
  exists n,
    e = index + n
    /\ In n (ends r (skipn index (list_ascii_of_string expression)))
    /\ hd_error (ends r (skipn index (list_ascii_of_string expression)))
       = Some n
    /\ slice expression index e
       = string_of_list_ascii
           (firstn n (skipn index (list_ascii_of_string expression))).
Proof.
  unfold rmatch, slice. intros H.
  destruct (ends r _) as [|n l] eqn:E; [discriminate|].
  injection H as <-. exists n.
  replace (index + n - index) with n by lia.
  repeat split; auto. left. reflexivity.
Qed.

(** A literal pattern matches its own text and nothing else. *)
Lemma ends_literal (r : regex) :
  forall cs s n,
    literal r = Some cs -> In n (ends r s) ->
    n = List.length cs /\ firstn n s = cs.
Proof.
  induction r as [c| |r1 IH1 r2 IH2|r IH|r IH]; intros cs s n Hlit Hin;
    cbn [literal] in Hlit; try discriminate.
  - injection Hlit as <-. cbn [ends] in Hin.
    destruct s as [|x s]; [contradiction|].
    destruct (Ascii.eqb_spec x c) as [->|]; [|contradiction].
    destruct Hin as [<-|[]]. split; reflexivity.
  - destruct (literal r1) as [cs1|]; [|discriminate].
    destruct (literal r2) as [cs2|]; [|discriminate].
    injection Hlit as <-. cbn [ends] in Hin.
    apply in_flat_map in Hin as [n1 [H1 H2]].
    apply in_map_iff in H2 as [m [<- Hm]].
    destruct (IH1 cs1 s n1 eq_refl H1) as [-> Hcs1].
    destruct (IH2 cs2 _ m eq_refl Hm) as [-> Hcs2].
    split; [rewrite length_app; reflexivity|].
    rewrite firstn_add, Hcs1, Hcs2. reflexivity.
Qed.

Lemma rmatch_literal (r : regex) (cs : list ascii) (expression : string)
    (index e : nat) :
  literal r = Some cs ->
  rmatch r expression index = Some e ->
  slice expression index e = string_of_list_ascii cs.
Proof.
  intros Hlit H. apply rmatch_In in H as [n [_ [Hin [_ ->]]]].
  destruct (ends_literal r cs _ n Hlit Hin) as [_ ->]. reflexivity.
Qed.

Lemma digit_run_firstn (s : list ascii) :
  forallb is_digit (firstn (digit_run s) s) = true
  /\ List.length (firstn (digit_run s) s) = digit_run s.
Proof.
  induction s as [|c s [IH1 IH2]]; [split; reflexivity|].
  cbn [digit_run]. destruct (is_digit c) eqn:E; [|split; reflexivity].
  cbn [firstn forallb List.length]. rewrite E, IH1, IH2. split; reflexivity.
Qed.

Lemma digits_of_list (ds : list ascii) :
  forallb is_digit ds = true -> 0 < List.length ds ->
  digits (string_of_list_ascii ds) = true.
Proof.
  intros Hall Hpos. unfold digits.
  rewrite list_ascii_of_string_of_list_ascii, Hall.
  destruct ds; [simpl in Hpos; lia|reflexivity].
Qed.

(** What [NUMBER] matches has the shape of a number. *)
Lemma number_end_shape (s : list ascii) (n : nat) :
  number_end s = Some n ->
  number_shape (string_of_list_ascii (firstn n s)).
Proof.
  unfold number_end. intros H.
  destruct (digit_run_firstn s) as [Hall Hlen].
  destruct (digit_run s) as [|k] eqn:Hrun; [discriminate|].
  assert (Hip : digits (string_of_list_ascii (firstn (S k) s)) = true)
    by (apply digits_of_list; [exact Hall|lia]).
  exists (string_of_list_ascii (firstn (S k) s)). split; [exact Hip|].
  destruct (skipn (S k) s) as [|c s'] eqn:Hskip.
  - injection H as <-. left. reflexivity.
  - destruct (Ascii.eqb_spec c ".") as [->|Hc].
    + destruct (digit_run_firstn s') as [Hall' Hlen'].
      destruct (digit_run s') as [|j] eqn:Hrun'.
      * injection H as <-. left. reflexivity.
      * injection H as <-. right.
        exists (string_of_list_ascii (firstn (S j) s')). split.
        -- apply digits_of_list; [exact Hall'|lia].
        -- transitivity
             (string_of_list_ascii
                (firstn (S k) s ++ firstn (1 + S j) (skipn (S k) s))).
           ++ f_equal. apply (firstn_add (S k) (1 + S j)).
           ++ rewrite Hskip. cbn [Nat.add firstn].
              rewrite string_of_list_ascii_app. reflexivity.
    + injection H as <-. left. reflexivity.
Qed.

Lemma rmatch_NUMBER_shape (expression : string) (index e : nat) :
  rmatch NUMBER_pattern expression index = Some e ->
  number_shape (slice expression index e).
Proof.
  intros H. apply rmatch_In in H as [n [_ [_ [Hhd ->]]]].
  rewrite ends_NUMBER_hd in Hhd. apply number_end_shape. exact Hhd.
Qed.

(** The token the [for] loop builds has the lexeme of its type. *)
Lemma first_match_lexeme (expression : string) (index e : nat)
    (t : token_type) :
  first_match TOKEN_TYPES expression index = Some (t, e) ->
  lexeme_matches (t, slice expression index e).
Proof.
  intros H. cbn [first_match TOKEN_TYPES] in H.
  repeat match type of H with
    | context [rmatch ?r expression index] =>
        let E := fresh "E" in
        destruct (rmatch r expression index) as [e'|] eqn:E;
        [ injection H as <- <-;
          first [ exact (rmatch_NUMBER_shape _ _ _ E)
                | eapply rmatch_literal in E; [|reflexivity]; exact E ]
        | ]
    end.
  discriminate.
Qed.

(** A property of every token the loop appends holds of all it returns. *)
Lemma lexer_loop_Forall (P : token -> Prop) (expression : string) :
  P (EOF, "EOF") ->
  (forall index t e,
      index < String.length expression ->
      first_match TOKEN_TYPES expression index = Some (t, e) ->
      P (t, slice expression index e)) ->
  forall fuel index tokens toks,
    Forall P tokens ->
    lexer_loop fuel expression index tokens = Return toks ->
    Forall P toks.
Proof.
  intros HEOF Hstep fuel.
  induction fuel as [|fuel IH]; intros index tokens toks Htokens H;
    [discriminate|].
  cbn [lexer_loop] in H.
  destruct (Nat.ltb_spec index (String.length expression)) as [Hlt|Hge].
  - destruct (first_match TOKEN_TYPES expression index) as [[t e]|] eqn:E.
    + apply IH in H; [exact H|].
      apply Forall_app. split; [exact Htokens|].
      constructor; [|constructor]. apply Hstep; assumption.
    + destruct (String.get index expression); discriminate.
  - injection H as <-. apply Forall_app. split; [exact Htokens|].
    constructor; [exact HEOF|constructor].
Qed.

Lemma lexer_lexeme_matches (expression : string) (toks : list token) :
  lexer expression = Return toks -> Forall lexeme_matches toks.
Proof.
  apply (lexer_loop_Forall lexeme_matches); [reflexivity| |constructor].
  intros index t e _. apply first_match_lexeme.
Qed.

Lemma length_append (s1 s2 : string) :
  String.length (s1 ++ s2) = String.length s1 + String.length s2.
Proof. induction s1 as [|c s1 IH]; simpl; congruence. Qed.

Lemma slice_length (expression : string) (i j : nat) :
  i <= j <= String.length expression ->
  String.length (slice expression i j) = j - i.
Proof.
  intros H. unfold slice.
  rewrite <- length_list_ascii_of_string,
    list_ascii_of_string_of_list_ascii, length_firstn, length_skipn,
    length_list_ascii_of_string.
  lia.
Qed.

Lemma lexemes_length (toks : list token) :
  Forall (fun tok => 1 <= String.length (snd tok)) toks ->
  List.length toks <= String.length (lexemes toks).
Proof.
  induction 1 as [|tok toks H _ IH]; [simpl; lia|].
  rewrite lexemes_cons, length_append. simpl. lia.
Qed.

(** X1: [lexer] answers on every text.  It returns tokens or raises the
    [ValueError] that names the first character the scan cannot match;
    it makes no access out of range, and allowing its loop more than
    [len(expression) + 1] iterations changes nothing. *)
Theorem lexer_answers (expression : string) :
  ((exists toks, lexer expression = Return toks)
   \/ (exists i c,
         scanned expression i
         /\ no_match_at expression i = true
         /\ String.get i expression = Some c
         /\ lexer expression
            = ValueError ("Unexpected character: " ++ String c "")))
  /\ (forall k,
         lexer_loop (S (String.length expression) + k) expression 0 []
         = lexer expression).
Proof.
  split; [|intros k; apply lexer_loop_fuel; lia].
  destruct (lexer_loop_result (S (String.length expression)) expression 0 [])
    as [[body [HR _]]|[msg HR]]; [lia| |].
  - left. eexists. exact HR.
  - right. fold (lexer expression) in HR.
    destruct (lexer_ValueError _ _ HR) as [i [c [Hs [_ [Hno [Hget ->]]]]]].
    exists i, c. auto.
Qed.

(** X2: every token [lexer] returns carries the lexeme of its type: a
    [NUMBER] is digits, or digits, a dot and digits; an operator, a
    function or a parenthesis is its own text; the last is [('EOF',
    'EOF')]. *)
Theorem lexer_lexeme_of_type (expression : string) (toks : list token) :
  lexer expression = Return toks -> Forall lexeme_matches toks.
Proof.
  intros H.
  apply (lexer_loop_Forall lexeme_matches expression) with
    (fuel := S (String.length expression)) (index := 0) (tokens := []).
  - reflexivity.
  - intros index t e _. apply first_match_lexeme.
  - constructor.
  - exact H.
Qed.

Lemma lexer_lexeme_of_type_witness :
  Forall lexeme_matches
    [(NUMBER, "12.5"); (MULTIPLY, "*"); (SIN, "sin"); (LPAREN, "(");
     (NUMBER, "3"); (RPAREN, ")"); (EOF, "EOF")].
Proof.
  exact (lexer_lexeme_of_type "12.5*sin(3)" _ eq_refl).
Defined.

(** X3: a token takes at least one character, so [lexer] returns at most
    [len(expression) + 1] tokens. *)
Theorem lexer_token_count (expression : string) (toks : list token) :
  lexer expression = Return toks ->
  List.length toks <= String.length expression + 1.
Proof.
  intros H.
  assert (Hall : Forall (fun tok => 1 <= String.length (snd tok)) toks).
  { apply (lexer_loop_Forall _ expression) with
      (fuel := S (String.length expression)) (index := 0) (tokens := []).
    - simpl. lia.
    - intros index t e Hlt Hm. apply TOKEN_TYPES_match in Hm as [_ Hb].
      cbn [snd]. rewrite slice_length; lia.
    - constructor.
    - exact H. }
  destruct (lexer_Return _ _ H) as [body [-> [_ Hlex]]].
  apply Forall_app in Hall as [Hbody _].
  apply lexemes_length in Hbody. rewrite Hlex in Hbody.
  rewrite length_app. cbn [List.length]. unfold token in *. lia.
Qed.

Lemma lexer_token_count_witness :
  List.length
    [(NUMBER, "2"); (PLUS, "+"); (NUMBER, "3"); (EOF, "EOF")]
  <= String.length "2+3" + 1.
Proof.
  exact (lexer_token_count "2+3" _ eq_refl).
Defined.

Lemma lexemes_chars (toks : list token) :
  list_ascii_of_string (lexemes toks)
  = flat_map (fun tok => list_ascii_of_string (snd tok)) toks.
Proof.
  induction toks as [|tok toks IH]; [reflexivity|].
  rewrite lexemes_cons, list_ascii_of_string_app, IH. reflexivity.
Qed.

Lemma forallb_flat_map {A B : Type} (p : B -> bool) (f : A -> list B)
    (l : list A) :
  forallb p (flat_map f l) = forallb (fun a => forallb p (f a)) l.
Proof.
  induction l as [|a l IH]; [reflexivity|].
  cbn [flat_map forallb]. rewrite forallb_app, IH. reflexivity.
Qed.

Lemma forallb_weaken {A : Type} (p q : A -> bool) (l : list A) :
  (forall a, p a = true -> q a = true) ->
  forallb p l = true -> forallb q l = true.
Proof.
  intros Hpq H. rewrite forallb_forall in *. auto.
Qed.

(** The characters of a number are digits and dots. *)
Lemma number_shape_chars (s : string) :
  number_shape s ->
  forallb (fun c => is_digit c || Ascii.eqb c ".") (list_ascii_of_string s)
  = true.
Proof.
  assert (Hd : forall ip,
             digits ip = true ->
             forallb (fun c => is_digit c || Ascii.eqb c ".")
               (list_ascii_of_string ip) = true).
  { intros ip H. apply digits_spec in H as [H _].
    revert H. apply forallb_weaken. intros c ->. reflexivity. }
  intros [ip [Hip [->|[fp [Hfp ->]]]]]; [auto|].
  rewrite !list_ascii_of_string_app, !forallb_app.
  rewrite (Hd ip Hip), (Hd fp Hfp). reflexivity.
Qed.

(** The characters of a lexeme, whatever its type. *)
Lemma lexeme_chars (p : ascii -> bool) (tok : token) :
  (forall c, is_digit c || Ascii.eqb c "." = true -> p c = true) ->
  forallb p (list_ascii_of_string "+-*/^!sincos()") = true ->
  lexeme_matches tok -> fst tok <> EOF ->
  forallb p (list_ascii_of_string (snd tok)) = true.
Proof.
  intros Hnum Hlit H Hne. destruct tok as [t lexeme].
  unfold lexeme_matches in H. cbn [fst snd] in *.
  cbn [list_ascii_of_string forallb] in Hlit.
  repeat match type of Hlit with
    | _ && _ = true => apply andb_true_iff in Hlit as [? Hlit]
    end.
  destruct t; try contradiction;
    try (subst lexeme; cbn [list_ascii_of_string forallb];
         repeat match goal with H : p _ = true |- _ => rewrite H end;
         reflexivity).
  apply number_shape_chars in H. revert H. apply forallb_weaken. exact Hnum.
Qed.

Lemma lexer_chars (p : ascii -> bool) (expression : string)
    (toks : list token) :
  (forall c, is_digit c || Ascii.eqb c "." = true -> p c = true) ->
  forallb p (list_ascii_of_string "+-*/^!sincos()") = true ->
  lexer expression = Return toks ->
  forallb p (list_ascii_of_string expression) = true.
Proof.
  intros Hnum Hlit H.
  pose proof (lexer_lexeme_matches _ _ H) as Hshape.
  destruct (lexer_Return _ _ H) as [body [-> [Hbody <-]]].
  apply Forall_app in Hshape as [Hshape _].
  rewrite lexemes_chars, forallb_flat_map. apply forallb_forall.
  intros tok Hin. rewrite Forall_forall in Hshape, Hbody.
  apply lexeme_chars; auto.
Qed.

(** X4: a text with a character that occurs in no lexeme, a space for
    one, is never tokenised: [lexer] raises [ValueError]. *)
Theorem lexer_rejects_foreign_character (expression : string) (c : ascii) :
  In c (list_ascii_of_string expression) ->
  in_alphabet c = false ->
  exists msg, lexer expression = ValueError msg.
Proof.
  intros Hin Hc.
  destruct (lexer_total expression) as [[toks H]|H]; [|exact H].
  exfalso.
  assert (Hall : forallb in_alphabet (list_ascii_of_string expression)
                 = true).
  { apply (lexer_chars in_alphabet expression toks); [|reflexivity|exact H].
    intros x Hx. unfold in_alphabet.
    apply orb_true_iff in Hx as [->|Hx]; [reflexivity|].
    apply Ascii.eqb_eq in Hx. subst x. reflexivity. }
  rewrite forallb_forall in Hall. rewrite (Hall c Hin) in Hc. discriminate.
Qed.

Lemma lexer_rejects_foreign_character_witness :
  exists msg, lexer "2 + 3" = ValueError msg.
Proof.
  apply (lexer_rejects_foreign_character "2 + 3" " ").
  - simpl. tauto.
  - reflexivity.
Defined.

(** ** The longest number is taken *)

Lemma adjacent_numbers_snoc (toks : list token) (tok : token) :
  adjacent_numbers (toks ++ [tok])
  = adjacent_numbers toks
    || (is_NUMBER (last toks (EOF, "")) && is_NUMBER tok).
Proof.
  induction toks as [|t1 toks IH]; [reflexivity|].
  destruct toks as [|t2 toks].
  - cbn. rewrite !orb_false_r. reflexivity.
  - change (adjacent_numbers ((t1 :: t2 :: toks) ++ [tok]))
      with (is_NUMBER t1 && is_NUMBER t2
            || adjacent_numbers ((t2 :: toks) ++ [tok])).
    rewrite IH.
    change (adjacent_numbers (t1 :: t2 :: toks))
      with (is_NUMBER t1 && is_NUMBER t2 || adjacent_numbers (t2 :: toks)).
    change (last (t1 :: t2 :: toks) (EOF, ""))
      with (last (t2 :: toks) (EOF, "")).
    rewrite orb_assoc. reflexivity.
Qed.

Lemma digit_run_skipn (s : list ascii) :
  digit_run (skipn (digit_run s) s) = 0.
Proof.
  induction s as [|c s IH]; [reflexivity|].
  cbn [digit_run]. destruct (is_digit c) eqn:E; cbn [skipn digit_run].
  - exact IH.
  - rewrite E. reflexivity.
Qed.

(** After a number comes no digit. *)
Lemma number_end_maximal (s : list ascii) (n : nat) :
  number_end s = Some n -> digit_run (skipn n s) = 0.
Proof.
  unfold number_end. intros H.
  pose proof (digit_run_skipn s) as Hstop.
  destruct (digit_run s) as [|k]; [discriminate|].
  destruct (skipn (S k) s) as [|c s'] eqn:Hskip.
  - injection H as <-. rewrite Hskip. reflexivity.
  - destruct (Ascii.eqb c ".").
    + pose proof (digit_run_skipn s') as Hstop'.
      destruct (digit_run s') as [|j].
      * injection H as <-. rewrite Hskip. exact Hstop.
      * injection H as <-.
        transitivity (digit_run (skipn (1 + S j) (skipn (S k) s))).
        -- rewrite skipn_skipn. do 2 f_equal. lia.
        -- rewrite Hskip. exact Hstop'.
    + injection H as <-. rewrite Hskip. exact Hstop.
Qed.

Lemma first_match_is_NUMBER (expression : string) (index e : nat) :
  first_match TOKEN_TYPES expression index = Some (NUMBER, e) ->
  rmatch NUMBER_pattern expression index = Some e.
Proof.
  intros H. cbn [first_match TOKEN_TYPES] in H.
  destruct (rmatch NUMBER_pattern expression index) as [e'|];
    [injection H as <-; reflexivity|].
  repeat match type of H with
    | context [rmatch ?r expression index] =>
        destruct (rmatch r expression index); [discriminate|]
    end.
  discriminate.
Qed.

Lemma lexer_loop_munch (fuel : nat) (expression : string) :
  forall index tokens toks,
    adjacent_numbers tokens = false ->
    (is_NUMBER (last tokens (EOF, "")) = true ->
     digit_run (skipn index (list_ascii_of_string expression)) = 0) ->
    lexer_loop fuel expression index tokens = Return toks ->
    adjacent_numbers toks = false.
Proof.
  induction fuel as [|fuel IH]; intros index tokens toks Hadj Hlast H;
    [discriminate|].
  cbn [lexer_loop] in H.
  destruct (Nat.ltb index (String.length expression)).
  - destruct (first_match TOKEN_TYPES expression index) as [[t e]|] eqn:E;
      [|destruct (String.get index expression); discriminate].
    apply IH in H; [exact H| |].
    + rewrite adjacent_numbers_snoc, Hadj. cbn [orb].
      destruct (is_NUMBER (last tokens (EOF, ""))) eqn:Hl; [|reflexivity].
      cbn [andb]. unfold is_NUMBER. cbn [fst].
      destruct (token_type_eqb t NUMBER) eqn:Ht; [|reflexivity].
      apply token_type_eqb_eq in Ht. subst t. exfalso.
      apply first_match_is_NUMBER in E.
      apply rmatch_In in E as [n [_ [_ [Hhd _]]]].
      rewrite ends_NUMBER_hd in Hhd. unfold number_end in Hhd.
      rewrite (Hlast eq_refl) in Hhd. discriminate.
    + rewrite last_last. unfold is_NUMBER. cbn [fst]. intros Ht.
      apply token_type_eqb_eq in Ht. subst t.
      apply first_match_is_NUMBER in E.
      apply rmatch_In in E as [n [-> [_ [Hhd _]]]].
      rewrite ends_NUMBER_hd in Hhd. apply number_end_maximal in Hhd.
      rewrite Nat.add_comm, <- skipn_skipn. exact Hhd.
  - injection H as <-. rewrite adjacent_numbers_snoc, Hadj.
    rewrite andb_false_r. reflexivity.
Qed.

(** X5: [lexer] never returns two [NUMBER] tokens in a row: the digits of
    a number are taken whole (["12"] is not ["1"] then ["2"]), and so is
    a fraction. *)
Theorem lexer_numbers_apart (expression : string) (toks : list token) :
  lexer expression = Return toks -> adjacent_numbers toks = false.
Proof.
  apply lexer_loop_munch; [reflexivity|].
  cbn. discriminate.
Qed.

Lemma lexer_numbers_apart_witness :
  adjacent_numbers
    [(NUMBER, "12.5"); (PLUS, "+"); (NUMBER, "340"); (EOF, "EOF")] = false.
Proof.
  exact (lexer_numbers_apart "12.5+340" _ eq_refl).
Defined.

Lemma lexer_digits_or_dots_witness :
  lexer "3.14" = Return [(NUMBER, "3.14"); (EOF, "EOF")]
  \/ lexer "3.14" = ValueError "Unexpected character: .".
Proof.
  apply (lexer_digits_or_dots "3.14").
  - discriminate.
  - reflexivity.
Defined.

(** * The parser and the grammar *)

Lemma skipn_nth_error {A : Type} (l : list A) (i : nat) (x : A) :
  nth_error l i = Some x -> skipn i l = x :: skipn (S i) l.
Proof.
  revert i. induction l as [|y l IH]; intros [|i] H; try discriminate.
  - injection H as ->. reflexivity.
  - simpl in H. apply IH in H. exact H.
Qed.

Section Soundness.

Variable toks : list token.
Hypothesis toks_EOF : EOF_terminated toks = true.

(** A token other than the last is matched by moving to the next one. *)
Lemma match_returns (token_type : token_type) (self self' : Parser)
    (r : nat) (value : string) :
  token_type <> EOF ->
  remaining toks self r ->
  match_ token_type self = (Return value, self') ->
  current_token self = (token_type, value)
  /\ 1 <= r
  /\ remaining toks self' (r - 1)
  /\ index self' = index self + 1
  /\ derivation_steps self' = derivation_steps self.
Proof.
  intros Hne [Htoks [Hidx Hcur]] Hrun. unfold match_ in Hrun.
  destruct (token_type_eqb (fst (current_token self)) token_type) eqn:E;
    [|discriminate].
  apply token_type_eqb_eq in E.
  destruct (EOF_terminated_last toks toks_EOF) as [body [tok [Hb Htok]]].
  assert (Hlen : List.length toks = List.length body + 1)
    by (rewrite Hb, length_app; reflexivity).
  assert (Hpos : 1 <= r).
  { destruct r as [|r]; [|lia]. exfalso.
    rewrite Hb, nth_error_app2 in Hcur by lia.
    replace (index self - List.length body) with 0 in Hcur by lia.
    injection Hcur as Hcur. congruence. }
  destruct (nth_error toks (index self + 1)) as [t|] eqn:Hnext;
    [|apply nth_error_None in Hnext; lia].
  unfold bind, advance, ret in Hrun. rewrite Htoks in Hrun.
  destruct (Nat.ltb_spec (index self + 1) (List.length toks)); [|lia].
  rewrite Hnext in Hrun. injection Hrun as <- <-.
  split; [destruct (current_token self); simpl in E; subst; reflexivity|].
  split; [exact Hpos|]. split; [|split; reflexivity].
  unfold remaining. cbn. repeat split; [lia|exact Hnext].
Qed.

Lemma yields_ret {A : Type} (a : A)
    (Q : A -> list string -> list token -> Prop) :
  Q a [] [] -> yields toks (ret a) Q.
Proof.
  intros HQ self r b self' Hrem Hrun. injection Hrun as <- <-.
  exists r, [], []. rewrite app_nil_r.
  split; [exact Hrem|]. split; [reflexivity|]. split; [reflexivity|exact HQ].
Qed.

Lemma yields_never {A : Type} (m : M A)
    (Q : A -> list string -> list token -> Prop) :
  (forall self a, fst (m self) <> Return a) -> yields toks m Q.
Proof.
  intros H self r a self' _ Hrun. exfalso. apply (H self a).
  rewrite Hrun. reflexivity.
Qed.

Lemma yields_conseq {A : Type} (m : M A)
    (Q1 Q : A -> list string -> list token -> Prop) :
  yields toks m Q1 -> (forall a l c, Q1 a l c -> Q a l c) ->
  yields toks m Q.
Proof.
  intros Hm HQ self r a self' Hrem Hrun.
  destruct (Hm self r a self' Hrem Hrun) as [r' [l [c [H1 [H2 [H3 H4]]]]]].
  exists r', l, c. auto.
Qed.

Lemma yields_call {A B : Type} (m : M A) (k : A -> M B)
    (Q1 : A -> list string -> list token -> Prop)
    (Q : B -> list string -> list token -> Prop) :
  yields toks m Q1 ->
  (forall a l1 c1,
      Q1 a l1 c1 ->
      yields toks (k a) (fun b l2 c2 => Q b (l1 ++ l2) (c1 ++ c2))) ->
  yields toks (bind m k) Q.
Proof.
  intros Hm Hk self r b self'' Hrem Hrun. unfold bind in Hrun.
  destruct (m self) as [[a|msg| |] self'] eqn:Em; try discriminate.
  destruct (Hm self r a self' Hrem Em)
    as [r' [l1 [c1 [Hrem' [Hl1 [Hc1 HQ1]]]]]].
  destruct (Hk a l1 c1 HQ1 self' r' b self'' Hrem' Hrun)
    as [r'' [l2 [c2 [Hrem'' [Hl2 [Hc2 HQ]]]]]].
  exists r'', (l1 ++ l2), (c1 ++ c2).
  split; [exact Hrem''|]. split; [|split; [|exact HQ]].
  - rewrite Hl2, Hl1, app_assoc. reflexivity.
  - rewrite Hc1, Hc2, app_assoc. reflexivity.
Qed.

Lemma yields_step {A : Type} (step : string) (k : M A)
    (Q : A -> list string -> list token -> Prop) :
  yields toks k (fun a l c => Q a (step :: l) c) ->
  yields toks (bind (append_step step) (fun _ => k)) Q.
Proof.
  intros Hk.
  apply (yields_call _ _ (fun _ l c => l = [step] /\ c = [])).
  - intros self r a self' Hrem Hrun. injection Hrun as <- <-.
    exists r, [step], [].
    split; [exact Hrem|]. split; [reflexivity|]. split; [reflexivity|].
    split; reflexivity.
  - intros _ l1 c1 [-> ->]. exact Hk.
Qed.

Lemma yields_match {A : Type} (token_type : token_type)
    (k : string -> M A) (Q : A -> list string -> list token -> Prop) :
  token_type <> EOF ->
  (forall value,
      yields toks (k value)
        (fun a l c => Q a l ((token_type, value) :: c))) ->
  yields toks (bind (match_ token_type) k) Q.
Proof.
  intros Hne Hk.
  apply (yields_call _ _
           (fun value l c => l = [] /\ c = [(token_type, value)])).
  - intros self r value self' Hrem Hrun.
    destruct (match_returns _ _ _ _ _ Hne Hrem Hrun)
      as [Hcur [Hpos [Hrem' [Hidx Hlog]]]].
    exists (r - 1), [], [(token_type, value)].
    split; [exact Hrem'|]. split; [rewrite Hlog, app_nil_r; reflexivity|].
    split; [|split; reflexivity].
    destruct Hrem as [_ [_ Hnth]]. rewrite Hcur in Hnth.
    rewrite Hidx, Nat.add_1_r. apply skipn_nth_error. exact Hnth.
  - intros value l1 c1 [-> ->]. apply Hk.
Qed.

Lemma yields_dispatch {A : Type} (k : token_type -> M A)
    (Q : A -> list string -> list token -> Prop) :
  (forall t, t <> CARET -> t <> FACTORIAL -> yields toks (k t) Q) ->
  (forall self a,
      fst (current_token self) = CARET
      \/ fst (current_token self) = FACTORIAL ->
      fst (k (fst (current_token self)) self) <> Return a) ->
  yields toks (bind current_type k) Q.
Proof.
  intros Hk Hop self r a self' Hrem Hrun.
  change (k (fst (current_token self)) self = (Return a, self')) in Hrun.
  destruct (token_type_eqb (fst (current_token self)) CARET) eqn:E1.
  { apply token_type_eqb_eq in E1. exfalso.
    apply (Hop self a (or_introl E1)). rewrite Hrun. reflexivity. }
  destruct (token_type_eqb (fst (current_token self)) FACTORIAL) eqn:E2.
  { apply token_type_eqb_eq in E2. exfalso.
    apply (Hop self a (or_intror E2)). rewrite Hrun. reflexivity. }
  refine (Hk (fst (current_token self)) _ _ self r a self' Hrem Hrun).
  - intros E. rewrite E in E1. discriminate.
  - intros E. rewrite E in E2. discriminate.
Qed.

Lemma yields_dispatch_any {A : Type} (k : token_type -> M A)
    (Q : A -> list string -> list token -> Prop) :
  (forall t, yields toks (k t) Q) -> yields toks (bind current_type k) Q.
Proof.
  intros Hk self r a self' Hrem Hrun.
  exact (Hk (fst (current_token self)) self r a self' Hrem Hrun).
Qed.

(** On [CARET] and [FACTORIAL] the branch of [parse_F] never returns. *)
Lemma parse_F_operator_never_returns (fuel : nat) (self : Parser)
    (a : ASTNode) :
  fst (current_token self) = CARET
  \/ fst (current_token self) = FACTORIAL ->
  fst (parse_F fuel self) <> Return a.
Proof.
  intros H. rewrite (parse_F_left_recursion fuel self H). discriminate.
Qed.

(** What a rule returns is derived by its non-terminal. *)
Lemma parse_rules_sound (fuel : nat) :
  yields toks (parse_E fuel) (fun a l c => derives_E c a l)
  /\ (forall left,
         yields toks (parse_E_PRIME fuel left)
           (fun a l c => derives_E' left c a l))
  /\ yields toks (parse_T fuel) (fun a l c => derives_T c a l)
  /\ (forall left,
         yields toks (parse_T_PRIME fuel left)
           (fun a l c => derives_T' left c a l))
  /\ yields toks (parse_F fuel) (fun a l c => derives_F c a l).
Proof.
  induction fuel as [|fuel [IHE [IHE' [IHT [IHT' IHF]]]]].
  - split; [|split; [|split; [|split]]]; intros;
      apply yields_never; intros; cbn; discriminate.
  - split; [|split; [|split; [|split]]].
    + cbn [parse_E]. apply yields_step.
      eapply yields_call; [exact IHT|]. intros left l1 c1 HT.
      eapply yields_conseq; [apply IHE'|]. intros a l c HE'.
      cbn beta in *. econstructor; eassumption.
    + intros left. cbn [parse_E_PRIME]. apply yields_dispatch_any.
      intros t. destruct t;
        try (apply yields_step; apply yields_ret; constructor).
      * apply yields_step. apply yields_match; [discriminate|intros lexeme].
        eapply yields_call; [exact IHT|]. intros right l1 c1 HT.
        eapply yields_conseq; [apply IHE'|]. intros a l c HE'.
        cbn beta in *. eapply E'_plus; eassumption.
      * apply yields_step. apply yields_match; [discriminate|intros lexeme].
        eapply yields_call; [exact IHT|]. intros right l1 c1 HT.
        eapply yields_conseq; [apply IHE'|]. intros a l c HE'.
        cbn beta in *. eapply E'_minus; eassumption.
    + cbn [parse_T]. apply yields_step.
      eapply yields_call; [exact IHF|]. intros left l1 c1 HF.
      eapply yields_conseq; [apply IHT'|]. intros a l c HT'.
      cbn beta in *. econstructor; eassumption.
    + intros left. cbn [parse_T_PRIME]. apply yields_dispatch_any.
      intros t. destruct t;
        try (apply yields_step; apply yields_ret; constructor).
      * apply yields_step. apply yields_match; [discriminate|intros lexeme].
        eapply yields_call; [exact IHF|]. intros right l1 c1 HF.
        eapply yields_conseq; [apply IHT'|]. intros a l c HT'.
        cbn beta in *. eapply T'_multiply; eassumption.
      * apply yields_step. apply yields_match; [discriminate|intros lexeme].
        eapply yields_call; [exact IHF|]. intros right l1 c1 HF.
        eapply yields_conseq; [apply IHT'|]. intros a l c HT'.
        cbn beta in *. eapply T'_divide; eassumption.
    + cbn [parse_F]. apply yields_dispatch.
      * intros t Hcaret Hfact. destruct t; try contradiction;
          try (apply yields_never; intros; cbn; discriminate).
        -- apply yields_step. apply yields_match; [discriminate|].
           intros value. apply yields_ret. constructor.
        -- apply yields_step. apply yields_match; [discriminate|].
           intros lexeme. eapply yields_call; [exact IHF|].
           intros child l1 c1 HF. apply yields_ret.
           rewrite !app_nil_r. apply F_sin. exact HF.
        -- apply yields_step. apply yields_match; [discriminate|].
           intros lexeme. eapply yields_call; [exact IHF|].
           intros child l1 c1 HF. apply yields_ret.
           rewrite !app_nil_r. apply F_cos. exact HF.
        -- apply yields_step. apply yields_match; [discriminate|].
           intros lexeme1. eapply yields_call; [exact IHE|].
           intros node l1 c1 HE. apply yields_match; [discriminate|].
           intros lexeme2. apply yields_ret.
           rewrite !app_nil_r. apply F_parens. exact HE.
      * intros self a H.
        change (fst (parse_F (S fuel) self) <> Return a).
        apply parse_F_operator_never_returns. exact H.
Qed.

End Soundness.

(** ** Every derivation is parsed *)

Lemma bind_run {A B : Type} (m : M A) (k : A -> M B) (self self' : Parser)
    (a : A) :
  m self = (Return a, self') -> bind m k self = k a self'.
Proof. intros H. unfold bind. rewrite H. reflexivity. Qed.

Lemma token_type_eqb_refl (t : token_type) : token_type_eqb t t = true.
Proof. destruct t; reflexivity. Qed.

Section Completeness.

Variable toks : list token.

Lemma reads_append_step (step : string) (self : Parser)
    (input : list token) (log : list string) :
  reads toks self input log ->
  exists self',
    append_step step self = (Return tt, self')
    /\ reads toks self' input (log ++ [step]).
Proof.
  intros [Htoks [Hskip [Hhd Hlog]]]. eexists. split; [reflexivity|].
  unfold reads. cbn. rewrite Hlog. auto.
Qed.

Lemma reads_match_ (token_type : token_type) (lexeme : string)
    (self : Parser) (rest : list token) (log : list string) :
  reads toks self ((token_type, lexeme) :: rest) log ->
  rest <> [] ->
  exists self',
    match_ token_type self = (Return lexeme, self')
    /\ reads toks self' rest log.
Proof.
  intros [Htoks [Hskip [Hhd Hlog]]] Hne.
  injection Hhd as Hcur.
  destruct rest as [|next rest']; [contradiction|].
  assert (Hskip' : skipn (index self + 1) toks = next :: rest').
  { rewrite Nat.add_comm, <- skipn_skipn, Hskip. reflexivity. }
  assert (Hnext : nth_error toks (index self + 1) = Some next)
    by (rewrite <- hd_error_skipn, Hskip'; reflexivity).
  assert (Hlt : index self + 1 < List.length toks)
    by (apply nth_error_Some; congruence).
  exists {| tokens := toks; index := index self + 1; current_token := next;
            derivation_steps := derivation_steps self |}.
  split.
  - unfold match_. rewrite <- Hcur. cbn [fst snd].
    rewrite token_type_eqb_refl. unfold bind, advance, ret.
    rewrite Htoks. apply Nat.ltb_lt in Hlt. rewrite Hlt, Hnext. reflexivity.
  - unfold reads. cbn. auto.
Qed.

Lemma reads_current (self : Parser) (tok : token) (rest : list token)
    (log : list string) :
  reads toks self (tok :: rest) log -> current_token self = tok.
Proof. intros [_ [_ [Hhd _]]]. injection Hhd as ->. reflexivity. Qed.

Lemma reads_log (self : Parser) (input : list token)
    (log log' : list string) :
  reads toks self input log -> log = log' -> reads toks self input log'.
Proof. intros H <-. exact H. Qed.

Lemma next_not_incl (kinds kinds' : list token_type) (rest : list token) :
  incl kinds' kinds -> next_not kinds rest -> next_not kinds' rest.
Proof.
  intros Hincl. destruct rest as [|tok rest]; simpl; [auto|].
  intros H Hin. apply H, Hincl, Hin.
Qed.

Lemma next_not_nil (rest : list token) : next_not [] rest.
Proof. destruct rest; simpl; auto. Qed.

(** What follows the start of an [E'] is no [*] and no [/]. *)
Lemma next_not_E' (left a : ASTNode) (c rest : list token)
    (l : list string) :
  derives_E' left c a l ->
  next_not [PLUS; MINUS; MULTIPLY; DIVIDE] rest ->
  next_not [MULTIPLY; DIVIDE] (c ++ rest).
Proof.
  intros H Hnext. destruct H.
  - simpl. intros [E|[E|[]]]; discriminate.
  - simpl. intros [E|[E|[]]]; discriminate.
  - simpl. revert Hnext. apply next_not_incl.
    intros t [<-|[<-|[]]]; simpl; auto.
Qed.

Lemma max_fuel_l (n1 n2 k : nat) :
  Nat.max n1 n2 + k = n1 + (Nat.max n1 n2 - n1 + k).
Proof. lia. Qed.

Lemma max_fuel_r (n1 n2 k : nat) :
  Nat.max n1 n2 + k = n2 + (Nat.max n1 n2 - n2 + k).
Proof. lia. Qed.

Lemma derives_parsed :
  (forall c a l,
      derives_E c a l ->
      parsed toks parse_E c a l [PLUS; MINUS; MULTIPLY; DIVIDE])
  /\ (forall left c a l,
         derives_E' left c a l ->
         parsed toks (fun fuel => parse_E_PRIME fuel left) c a l
           [PLUS; MINUS; MULTIPLY; DIVIDE])
  /\ (forall c a l,
         derives_T c a l -> parsed toks parse_T c a l [MULTIPLY; DIVIDE])
  /\ (forall left c a l,
         derives_T' left c a l ->
         parsed toks (fun fuel => parse_T_PRIME fuel left) c a l
           [MULTIPLY; DIVIDE])
  /\ (forall c a l, derives_F c a l -> parsed toks parse_F c a l []).
Proof.
  apply derives_mutind.
  - (* E -> T E' *)
    intros c1 c2 left a l1 l2 HT IHT HE' IHE' self rest log Hr Hne Hnext.
    rewrite <- app_assoc in Hr.
    destruct (reads_append_step "E -> T E'" _ _ _ Hr) as [self0 [H0 Hr0]].
    destruct (IHT self0 (c2 ++ rest) _ Hr0) as [n1 [self1 [Hr1 H1]]].
    { destruct c2; [exact Hne|discriminate]. }
    { eapply next_not_E'; eassumption. }
    destruct (IHE' self1 rest _ Hr1 Hne Hnext) as [n2 [self2 [Hr2 H2]]].
    exists (S (Nat.max n1 n2)), self2. split.
    + eapply reads_log; [exact Hr2|].
      rewrite <- !app_assoc. reflexivity.
    + intros k. cbn [Nat.add parse_E].
      rewrite (bind_run _ _ _ _ _ H0).
      rewrite (max_fuel_l n1 n2 k) at 1.
      rewrite (bind_run _ _ _ _ _ (H1 _)).
      rewrite (max_fuel_r n1 n2 k). apply H2.
  - (* E' -> + T E' *)
    intros left right a lexeme c1 c2 l1 l2 H1 IH1 H2 IH2
      self rest log Hr Hne Hnext.
    cbn [app] in Hr. rewrite <- app_assoc in Hr.
    pose proof (reads_current _ _ _ _ Hr) as Hcur.
    destruct (reads_append_step "E' -> + T E'" _ _ _ Hr) as [self0 [R0 Hr0]].
    destruct (reads_match_ _ _ _ _ _ Hr0) as [self1 [R1 Hr1]].
    { destruct c1, c2; try discriminate. exact Hne. }
    destruct (IH1 self1 (c2 ++ rest) _ Hr1) as [n1 [self2 [Hr2 R2]]].
    { destruct c2; [exact Hne|discriminate]. }
    { eapply next_not_E'; eassumption. }
    destruct (IH2 self2 rest _ Hr2 Hne Hnext) as [n2 [self3 [Hr3 R3]]].
    exists (S (Nat.max n1 n2)), self3. split.
    + eapply reads_log; [exact Hr3|].
      rewrite <- !app_assoc. reflexivity.
    + intros k. cbn [Nat.add parse_E_PRIME].
      rewrite (bind_run current_type _ self self _ eq_refl).
      rewrite Hcur. cbn [fst].
      rewrite (bind_run _ _ _ _ _ R0), (bind_run _ _ _ _ _ R1).
      rewrite (max_fuel_l n1 n2 k) at 1.
      rewrite (bind_run _ _ _ _ _ (R2 _)). cbn zeta.
      rewrite (max_fuel_r n1 n2 k). apply R3.
  - (* E' -> - T E' *)
    intros left right a lexeme c1 c2 l1 l2 H1 IH1 H2 IH2
      self rest log Hr Hne Hnext.
    cbn [app] in Hr. rewrite <- app_assoc in Hr.
    pose proof (reads_current _ _ _ _ Hr) as Hcur.
    destruct (reads_append_step "E' -> - T E'" _ _ _ Hr) as [self0 [R0 Hr0]].
    destruct (reads_match_ _ _ _ _ _ Hr0) as [self1 [R1 Hr1]].
    { destruct c1, c2; try discriminate. exact Hne. }
    destruct (IH1 self1 (c2 ++ rest) _ Hr1) as [n1 [self2 [Hr2 R2]]].
    { destruct c2; [exact Hne|discriminate]. }
    { eapply next_not_E'; eassumption. }
    destruct (IH2 self2 rest _ Hr2 Hne Hnext) as [n2 [self3 [Hr3 R3]]].
    exists (S (Nat.max n1 n2)), self3. split.
    + eapply reads_log; [exact Hr3|].
      rewrite <- !app_assoc. reflexivity.
    + intros k. cbn [Nat.add parse_E_PRIME].
      rewrite (bind_run current_type _ self self _ eq_refl).
      rewrite Hcur. cbn [fst].
      rewrite (bind_run _ _ _ _ _ R0), (bind_run _ _ _ _ _ R1).
      rewrite (max_fuel_l n1 n2 k) at 1.
      rewrite (bind_run _ _ _ _ _ (R2 _)). cbn zeta.
      rewrite (max_fuel_r n1 n2 k). apply R3.
  - (* E' -> ε *)
    intros left self rest log Hr Hne Hnext.
    cbn [app] in Hr.
    destruct rest as [|tok rest']; [contradiction|].
    pose proof (reads_current _ _ _ _ Hr) as Hcur.
    destruct (reads_append_step "E' -> ε" _ _ _ Hr) as [self0 [R0 Hr0]].
    exists 1, self0. split; [exact Hr0|].
    intros k. cbn [Nat.add parse_E_PRIME].
    rewrite (bind_run current_type _ self self _ eq_refl).
    simpl in Hnext. rewrite <- Hcur in Hnext.
    destruct (fst (current_token self));
      try (exfalso; apply Hnext; simpl; tauto);
      rewrite (bind_run _ _ _ _ _ R0); reflexivity.
  - (* T -> F T' *)
    intros c1 c2 left a l1 l2 H1 IH1 H2 IH2 self rest log Hr Hne Hnext.
    rewrite <- app_assoc in Hr.
    destruct (reads_append_step "T -> F T'" _ _ _ Hr) as [self0 [R0 Hr0]].
    destruct (IH1 self0 (c2 ++ rest) _ Hr0) as [n1 [self1 [Hr1 R1]]].
    { destruct c2; [exact Hne|discriminate]. }
    { apply next_not_nil. }
    destruct (IH2 self1 rest _ Hr1 Hne Hnext) as [n2 [self2 [Hr2 R2]]].
    exists (S (Nat.max n1 n2)), self2. split.
    + eapply reads_log; [exact Hr2|].
      rewrite <- !app_assoc. reflexivity.
    + intros k. cbn [Nat.add parse_T].
      rewrite (bind_run _ _ _ _ _ R0).
      rewrite (max_fuel_l n1 n2 k) at 1.
      rewrite (bind_run _ _ _ _ _ (R1 _)).
      rewrite (max_fuel_r n1 n2 k). apply R2.
  - (* T' -> * F T' *)
    intros left right a lexeme c1 c2 l1 l2 H1 IH1 H2 IH2
      self rest log Hr Hne Hnext.
    cbn [app] in Hr. rewrite <- app_assoc in Hr.
    pose proof (reads_current _ _ _ _ Hr) as Hcur.
    destruct (reads_append_step "T' -> * F T'" _ _ _ Hr) as [self0 [R0 Hr0]].
    destruct (reads_match_ _ _ _ _ _ Hr0) as [self1 [R1 Hr1]].
    { destruct c1, c2; try discriminate. exact Hne. }
    destruct (IH1 self1 (c2 ++ rest) _ Hr1) as [n1 [self2 [Hr2 R2]]].
    { destruct c2; [exact Hne|discriminate]. }
    { apply next_not_nil. }
    destruct (IH2 self2 rest _ Hr2 Hne Hnext) as [n2 [self3 [Hr3 R3]]].
    exists (S (Nat.max n1 n2)), self3. split.
    + eapply reads_log; [exact Hr3|].
      rewrite <- !app_assoc. reflexivity.
    + intros k. cbn [Nat.add parse_T_PRIME].
      rewrite (bind_run current_type _ self self _ eq_refl).
      rewrite Hcur. cbn [fst].
      rewrite (bind_run _ _ _ _ _ R0), (bind_run _ _ _ _ _ R1).
      rewrite (max_fuel_l n1 n2 k) at 1.
      rewrite (bind_run _ _ _ _ _ (R2 _)). cbn zeta.
      rewrite (max_fuel_r n1 n2 k). apply R3.
  - (* T' -> / F T' *)
    intros left right a lexeme c1 c2 l1 l2 H1 IH1 H2 IH2
      self rest log Hr Hne Hnext.
    cbn [app] in Hr. rewrite <- app_assoc in Hr.
    pose proof (reads_current _ _ _ _ Hr) as Hcur.
    destruct (reads_append_step "T' -> / F T'" _ _ _ Hr) as [self0 [R0 Hr0]].
    destruct (reads_match_ _ _ _ _ _ Hr0) as [self1 [R1 Hr1]].
    { destruct c1, c2; try discriminate. exact Hne. }
    destruct (IH1 self1 (c2 ++ rest) _ Hr1) as [n1 [self2 [Hr2 R2]]].
    { destruct c2; [exact Hne|discriminate]. }
    { apply next_not_nil. }
    destruct (IH2 self2 rest _ Hr2 Hne Hnext) as [n2 [self3 [Hr3 R3]]].
    exists (S (Nat.max n1 n2)), self3. split.
    + eapply reads_log; [exact Hr3|].
      rewrite <- !app_assoc. reflexivity.
    + intros k. cbn [Nat.add parse_T_PRIME].
      rewrite (bind_run current_type _ self self _ eq_refl).
      rewrite Hcur. cbn [fst].
      rewrite (bind_run _ _ _ _ _ R0), (bind_run _ _ _ _ _ R1).
      rewrite (max_fuel_l n1 n2 k) at 1.
      rewrite (bind_run _ _ _ _ _ (R2 _)). cbn zeta.
      rewrite (max_fuel_r n1 n2 k). apply R3.
  - (* T' -> ε *)
    intros left self rest log Hr Hne Hnext.
    cbn [app] in Hr.
    destruct rest as [|tok rest']; [contradiction|].
    pose proof (reads_current _ _ _ _ Hr) as Hcur.
    destruct (reads_append_step "T' -> ε" _ _ _ Hr) as [self0 [R0 Hr0]].
    exists 1, self0. split; [exact Hr0|].
    intros k. cbn [Nat.add parse_T_PRIME].
    rewrite (bind_run current_type _ self self _ eq_refl).
    simpl in Hnext. rewrite <- Hcur in Hnext.
    destruct (fst (current_token self));
      try (exfalso; apply Hnext; simpl; tauto);
      rewrite (bind_run _ _ _ _ _ R0); reflexivity.
  - (* F -> ( E ) *)
    intros lexeme1 lexeme2 c a l H1 IH1 self rest log Hr Hne _.
    cbn [app] in Hr. rewrite <- app_assoc in Hr. cbn [app] in Hr.
    pose proof (reads_current _ _ _ _ Hr) as Hcur.
    destruct (reads_append_step "F -> ( E )" _ _ _ Hr) as [self0 [R0 Hr0]].
    destruct (reads_match_ _ _ _ _ _ Hr0) as [self1 [R1 Hr1]].
    { destruct c; discriminate. }
    destruct (IH1 self1 ((RPAREN, lexeme2) :: rest) _ Hr1)
      as [n1 [self2 [Hr2 R2]]].
    { discriminate. }
    { simpl. intros [E|[E|[E|[E|[]]]]]; discriminate. }
    destruct (reads_match_ _ _ _ _ _ Hr2 Hne) as [self3 [R3 Hr3]].
    exists (S n1), self3. split.
    + eapply reads_log; [exact Hr3|].
      rewrite <- !app_assoc. reflexivity.
    + intros k. cbn [Nat.add parse_F].
      rewrite (bind_run current_type _ self self _ eq_refl).
      rewrite Hcur. cbn [fst].
      rewrite (bind_run _ _ _ _ _ R0), (bind_run _ _ _ _ _ R1).
      rewrite (bind_run _ _ _ _ _ (R2 _)), (bind_run _ _ _ _ _ R3).
      reflexivity.
  - (* F -> NUMBER *)
    intros value self rest log Hr Hne _.
    cbn [app] in Hr.
    pose proof (reads_current _ _ _ _ Hr) as Hcur.
    destruct (reads_append_step "F -> NUMBER" _ _ _ Hr) as [self0 [R0 Hr0]].
    destruct (reads_match_ _ _ _ _ _ Hr0 Hne) as [self1 [R1 Hr1]].
    exists 1, self1. split; [exact Hr1|].
    intros k. cbn [Nat.add parse_F].
    rewrite (bind_run current_type _ self self _ eq_refl).
    rewrite Hcur. cbn [fst].
    rewrite (bind_run _ _ _ _ _ R0), (bind_run _ _ _ _ _ R1).
    reflexivity.
  - (* F -> sin F *)
    intros lexeme c child l H1 IH1 self rest log Hr Hne _.
    cbn [app] in Hr.
    pose proof (reads_current _ _ _ _ Hr) as Hcur.
    destruct (reads_append_step "F -> sin F" _ _ _ Hr) as [self0 [R0 Hr0]].
    destruct (reads_match_ _ _ _ _ _ Hr0) as [self1 [R1 Hr1]].
    { destruct c; [exact Hne|discriminate]. }
    destruct (IH1 self1 rest _ Hr1 Hne (next_not_nil rest)) as [n1 [self2 [Hr2 R2]]].
    exists (S n1), self2. split.
    + eapply reads_log; [exact Hr2|].
      rewrite <- !app_assoc. reflexivity.
    + intros k. cbn [Nat.add parse_F].
      rewrite (bind_run current_type _ self self _ eq_refl).
      rewrite Hcur. cbn [fst].
      rewrite (bind_run _ _ _ _ _ R0), (bind_run _ _ _ _ _ R1).
      rewrite (bind_run _ _ _ _ _ (R2 _)). reflexivity.
  - (* F -> cos F *)
    intros lexeme c child l H1 IH1 self rest log Hr Hne _.
    cbn [app] in Hr.
    pose proof (reads_current _ _ _ _ Hr) as Hcur.
    destruct (reads_append_step "F -> cos F" _ _ _ Hr) as [self0 [R0 Hr0]].
    destruct (reads_match_ _ _ _ _ _ Hr0) as [self1 [R1 Hr1]].
    { destruct c; [exact Hne|discriminate]. }
    destruct (IH1 self1 rest _ Hr1 Hne (next_not_nil rest)) as [n1 [self2 [Hr2 R2]]].
    exists (S n1), self2. split.
    + eapply reads_log; [exact Hr2|].
      rewrite <- !app_assoc. reflexivity.
    + intros k. cbn [Nat.add parse_F].
      rewrite (bind_run current_type _ self self _ eq_refl).
      rewrite Hcur. cbn [fst].
      rewrite (bind_run _ _ _ _ _ R0), (bind_run _ _ _ _ _ R1).
      rewrite (bind_run _ _ _ _ _ (R2 _)). reflexivity.
Qed.

End Completeness.

(** ** Runs of [parse] and derivations *)

Lemma parse_sound_run (fuel : nat) (toks : list token) (ast : ASTNode)
    (log : list string) :
  EOF_terminated toks = true ->
  run_parse fuel toks = Return (ast, log) ->
  exists c lexeme rest,
    toks = c ++ (EOF, lexeme) :: rest /\ derives_E c ast log.
Proof.
  intros Hterm Hrun. unfold run_parse in Hrun.
  destruct toks as [|t toks'] eqn:Etoks; [discriminate|].
  rewrite <- Etoks in *.
  set (self := {| tokens := toks; index := 0; current_token := t;
                  derivation_steps := [] |}).
  assert (Hinit : __init__ toks = Return self)
    by (unfold __init__, self; rewrite Etoks; reflexivity).
  rewrite Hinit in Hrun.
  assert (Hrem : remaining toks self (List.length toks - 1)).
  { unfold remaining. cbn. rewrite Etoks. cbn. repeat split. lia. }
  destruct fuel as [|fuel]; [discriminate|].
  cbn [parse] in Hrun. unfold bind in Hrun.
  destruct (parse_E fuel self) as [[a|msg| |] self1] eqn:E;
    try discriminate.
  cbn [current_type] in Hrun.
  destruct (token_type_eqb (fst (current_token self1)) EOF) eqn:HEOF;
    [|discriminate].
  cbn [negb fst] in Hrun. injection Hrun as -> <-.
  destruct (parse_rules_sound toks Hterm fuel) as [HE _].
  destruct (HE self _ _ _ Hrem E)
    as [r' [l [c [[_ [_ Hcur]] [Hlog [Hskip Hder]]]]]].
  apply token_type_eqb_eq in HEOF.
  exists c, (snd (current_token self1)),
    (skipn (S (index self1)) toks).
  split.
  - cbn [index self skipn] in Hskip. rewrite Hskip at 1. f_equal.
    rewrite <- HEOF, <- surjective_pairing.
    apply skipn_nth_error. exact Hcur.
  - rewrite Hlog. exact Hder.
Qed.

Lemma parse_complete_run (c rest : list token) (lexeme : string)
    (ast : ASTNode) (log : list string) :
  derives_E c ast log ->
  exists n, forall k,
    run_parse (n + k) (c ++ (EOF, lexeme) :: rest) = Return (ast, log).
Proof.
  intros Hder.
  set (toks := c ++ (EOF, lexeme) :: rest).
  destruct toks as [|t toks'] eqn:Etoks;
    [destruct c; discriminate|].
  set (self := {| tokens := t :: toks'; index := 0; current_token := t;
                  derivation_steps := [] |}).
  assert (Hr : reads (t :: toks') self (c ++ (EOF, lexeme) :: rest) []).
  { unfold reads. cbn. fold toks. rewrite Etoks. auto. }
  destruct (derives_parsed (t :: toks')) as [HE _].
  destruct (HE c ast log Hder self _ _ Hr) as [n [self' [Hr' R]]].
  { discriminate. }
  { simpl. intros [E|[E|[E|[E|[]]]]]; discriminate. }
  exists (S n). intros k. unfold run_parse. cbn [__init__ nth_error].
  fold self. cbn [Nat.add parse].
  rewrite (bind_run _ _ _ _ _ (R k)).
  rewrite (bind_run current_type _ self' self' _ eq_refl).
  rewrite (reads_current _ _ _ _ _ Hr'). cbn [fst token_type_eqb negb].
  destruct Hr' as [_ [_ [_ ->]]]. reflexivity.
Qed.

(** ** What a derivation says of the tokens and of the tree *)

Lemma derives_consumable :
  (forall c a l, derives_E c a l -> forallb consumable c = true)
  /\ (forall left c a l,
         derives_E' left c a l -> forallb consumable c = true)
  /\ (forall c a l, derives_T c a l -> forallb consumable c = true)
  /\ (forall left c a l,
         derives_T' left c a l -> forallb consumable c = true)
  /\ (forall c a l, derives_F c a l -> forallb consumable c = true).
Proof.
  apply derives_mutind; intros; cbn [forallb consumable fst andb];
    rewrite ?forallb_app; cbn [forallb consumable fst andb];
    repeat match goal with H : forallb _ _ = true |- _ => rewrite H end;
    reflexivity.
Qed.

Lemma derives_nonempty :
  (forall c a l, derives_E c a l -> c <> [])
  /\ (forall left c a l, derives_E' left c a l -> True)
  /\ (forall c a l, derives_T c a l -> c <> [])
  /\ (forall left c a l, derives_T' left c a l -> True)
  /\ (forall c a l, derives_F c a l -> c <> []).
Proof.
  apply derives_mutind; intros; try exact I; try discriminate;
    match goal with
    | H : ?c1 <> [] |- ?c1 ++ _ <> [] =>
        destruct c1; [contradiction|discriminate]
    end.
Qed.


Lemma derives_inorder :
  (forall c a l, derives_E c a l -> inorder a = flat_map symbol c)
  /\ (forall left c a l,
         derives_E' left c a l ->
         inorder a = inorder left ++ flat_map symbol c)
  /\ (forall c a l, derives_T c a l -> inorder a = flat_map symbol c)
  /\ (forall left c a l,
         derives_T' left c a l ->
         inorder a = inorder left ++ flat_map symbol c)
  /\ (forall c a l, derives_F c a l -> inorder a = flat_map symbol c).
Proof.
  apply derives_mutind; intros;
    cbn [flat_map symbol fst snd app inorder];
    rewrite ?flat_map_app; cbn [flat_map symbol fst snd app inorder];
    rewrite ?app_nil_r;
    repeat match goal with H : inorder _ = _ |- _ => rewrite H end;
    cbn [inorder]; rewrite <- ?app_assoc; try reflexivity.
  all: rewrite H0; reflexivity.
Qed.

Lemma paren_depth_app (c1 c2 : list token) :
  forall depth,
    paren_depth depth (c1 ++ c2)
    = match paren_depth depth c1 with
      | Some depth' => paren_depth depth' c2
      | None => None
      end.
Proof.
  induction c1 as [|tok c1 IH]; intros depth; cbn [app paren_depth];
    [reflexivity|].
  destruct (fst tok); try apply IH.
  destruct depth; [reflexivity|apply IH].
Qed.

Lemma derives_balanced :
  (forall c a l,
      derives_E c a l -> forall depth, paren_depth depth c = Some depth)
  /\ (forall left c a l,
         derives_E' left c a l ->
         forall depth, paren_depth depth c = Some depth)
  /\ (forall c a l,
         derives_T c a l -> forall depth, paren_depth depth c = Some depth)
  /\ (forall left c a l,
         derives_T' left c a l ->
         forall depth, paren_depth depth c = Some depth)
  /\ (forall c a l,
         derives_F c a l -> forall depth, paren_depth depth c = Some depth).
Proof.
  apply derives_mutind; intros;
    cbn [paren_depth fst]; rewrite ?paren_depth_app;
    repeat match goal with
      | H : forall depth, paren_depth depth ?c = Some depth |- _ =>
          rewrite !H; clear H
      end;
    reflexivity.
Qed.

(** A token list that ends with its only [EOF] splits in one way. *)
Lemma split_at_EOF (body c rest : list token) (tok tok' : token) :
  Forall (fun t => fst t <> EOF) body ->
  forallb consumable c = true ->
  fst tok = EOF -> fst tok' = EOF ->
  body ++ [tok] = c ++ tok' :: rest ->
  c = body /\ tok' = tok /\ rest = [].
Proof.
  intros Hbody. revert c. induction Hbody as [|t body Ht Hbody IH];
    intros c Hc Htok Htok' E.
  - destruct c as [|t c].
    + injection E as -> <-. auto.
    + cbn in Hc. apply andb_true_iff in Hc as [Hc _].
      injection E as <- E. unfold consumable in Hc. rewrite Htok in Hc.
      discriminate.
  - destruct c as [|t' c].
    + injection E as <- _. contradiction.
    + injection E as <- E. cbn in Hc. apply andb_true_iff in Hc as [_ Hc].
      destruct (IH c Hc Htok Htok' E) as [-> [-> ->]]. auto.
Qed.

Lemma analyse_sound (fuel : nat) (expression : string) (ast : ASTNode)
    (log : list string) :
  analyse fuel expression = Return (ast, log) ->
  exists c,
    lexer expression = Return (c ++ [(EOF, "EOF")])
    /\ lexemes c = expression
    /\ derives_E c ast log.
Proof.
  unfold analyse. intros H.
  destruct (lexer expression) as [toks|msg| |] eqn:Hlex; try discriminate.
  destruct (lexer_Return _ _ Hlex) as [body [-> [Hbody Hlexemes]]].
  apply parse_sound_run in H as [c [lexeme [rest [E Hder]]]].
  - pose proof (proj1 derives_consumable _ _ _ Hder) as Hc.
    destruct (split_at_EOF body c rest (EOF, "EOF") (EOF, lexeme) Hbody Hc
                eq_refl eq_refl E) as [-> _].
    exists body. auto.
  - unfold EOF_terminated. rewrite rev_app_distr. reflexivity.
Qed.

(** * Further properties of the parser *)

(** X7: [parse] is the grammar.  On tokens [c] followed by [EOF], a run
    returns the tree [ast] and the log [log], at every depth from some
    depth on, exactly when [E] derives [c] with that tree and that log
    in [GRAMMAR] without [F ^ F] and [F !]. *)
Theorem parse_iff_derives (c : list token) (lexeme : string)
    (ast : ASTNode) (log : list string) :
  Forall (fun tok => fst tok <> EOF) c ->
  (derives_E c ast log
   <-> exists n, forall k,
         run_parse (n + k) (c ++ [(EOF, lexeme)]) = Return (ast, log)).
Proof.
  intros Hc. split.
  - intros Hder. apply parse_complete_run. exact Hder.
  - intros [n Hrun]. specialize (Hrun 0).
    apply parse_sound_run in Hrun as [c' [lexeme' [rest [E Hder]]]].
    + pose proof (proj1 derives_consumable _ _ _ Hder) as Hc'.
      destruct (split_at_EOF c c' rest (EOF, lexeme) (EOF, lexeme') Hc Hc'
                  eq_refl eq_refl E) as [-> _].
      exact Hder.
    + unfold EOF_terminated. rewrite rev_app_distr. reflexivity.
Qed.

Lemma parse_iff_derives_witness :
  derives_E [(NUMBER, "2"); (PLUS, "+"); (NUMBER, "3")]
    (mkASTNode "+" [mkASTNode "2" []; mkASTNode "3" []])
    ["E -> T E'"; "T -> F T'"; "F -> NUMBER"; "T' -> ε"; "E' -> + T E'";
     "T -> F T'"; "F -> NUMBER"; "T' -> ε"; "E' -> ε"].
Proof.
  apply (parse_iff_derives [(NUMBER, "2"); (PLUS, "+"); (NUMBER, "3")]
           "EOF").
  - repeat constructor; discriminate.
  - exists 6. intros k. reflexivity.
Defined.



(** X9: [parse] only returns when the parentheses it consumed are
    balanced: the tokens before [EOF] never close a parenthesis that is
    not open and leave none open. *)
Theorem parse_balanced (fuel : nat) (toks : list token) (ast : ASTNode)
    (log : list string) :
  EOF_terminated toks = true ->
  run_parse fuel toks = Return (ast, log) ->
  exists c lexeme rest,
    toks = c ++ (EOF, lexeme) :: rest
    /\ balanced c = true
    /\ forallb consumable c = true.
Proof.
  intros Hterm Hrun.
  apply parse_sound_run in Hrun as [c [lexeme [rest [E Hder]]]];
    [|exact Hterm].
  exists c, lexeme, rest. split; [exact E|]. split.
  - unfold balanced.
    rewrite (proj1 derives_balanced _ _ _ Hder 0). reflexivity.
  - exact (proj1 derives_consumable _ _ _ Hder).
Qed.

Lemma parse_balanced_witness :
  exists c lexeme rest,
    [(LPAREN, "("); (NUMBER, "2"); (RPAREN, ")"); (EOF, "EOF")]
    = c ++ (EOF, lexeme) :: rest
    /\ balanced c = true
    /\ forallb consumable c = true.
Proof.
  apply (parse_balanced 7
           [(LPAREN, "("); (NUMBER, "2"); (RPAREN, ")"); (EOF, "EOF")]
           (mkASTNode "2" [])
           ["E -> T E'"; "T -> F T'"; "F -> ( E )"; "E -> T E'";
            "T -> F T'"; "F -> NUMBER"; "T' -> ε"; "E' -> ε"; "T' -> ε";
            "E' -> ε"]).
  - reflexivity.
  - reflexivity.
Defined.

Lemma concat_cons (x : string) (xs : list string) :
  String.concat "" (x :: xs) = (x ++ String.concat "" xs)%string.
Proof.
  cbn [String.concat]. destruct xs as [|y ys]; [|reflexivity].
  cbn [String.concat]. induction x as [|ch x IH]; simpl; congruence.
Qed.

Lemma append_assoc (s1 s2 s3 : string) :
  ((s1 ++ s2) ++ s3 = s1 ++ (s2 ++ s3))%string.
Proof. induction s1 as [|ch s1 IH]; simpl; congruence. Qed.

Lemma concat_app_strings (l1 l2 : list string) :
  String.concat "" (l1 ++ l2)
  = (String.concat "" l1 ++ String.concat "" l2)%string.
Proof.
  induction l1 as [|x l1 IH]; [reflexivity|].
  cbn [app]. rewrite !concat_cons, IH, append_assoc. reflexivity.
Qed.

Lemma remove_parens_app (s1 s2 : string) :
  remove_parens (s1 ++ s2)
  = (remove_parens s1 ++ remove_parens s2)%string.
Proof.
  unfold remove_parens.
  rewrite list_ascii_of_string_app, filter_app, string_of_list_ascii_app.
  reflexivity.
Qed.

Lemma filter_all {A : Type} (p : A -> bool) (l : list A) :
  forallb p l = true -> filter p l = l.
Proof.
  induction l as [|a l IH]; cbn [forallb filter]; [reflexivity|].
  intros H. apply andb_true_iff in H as [-> H]. rewrite IH; auto.
Qed.

(** The symbol of a token the parser consumes is its lexeme, less the
    parentheses. *)
Lemma symbol_lexeme (tok : token) :
  lexeme_matches tok -> consumable tok = true ->
  String.concat "" (symbol tok) = remove_parens (snd tok).
Proof.
  destruct tok as [t lexeme]. unfold lexeme_matches, consumable, symbol.
  cbn [fst snd]. intros H Hc.
  destruct t; try discriminate; try (subst lexeme; reflexivity).
  apply number_shape_chars in H. unfold remove_parens.
  rewrite filter_all; [symmetry; apply string_of_list_ascii_of_string|].
  revert H. apply forallb_weaken. intros ch Hch.
  apply orb_true_iff in Hch as [Hd|Hdot].
  - destruct (Ascii.eqb_spec ch "(") as [->|_]; [discriminate Hd|].
    destruct (Ascii.eqb_spec ch ")") as [->|_]; [discriminate Hd|].
    reflexivity.
  - apply Ascii.eqb_eq in Hdot. subst ch. reflexivity.
Qed.

Lemma symbols_lexemes (c : list token) :
  Forall lexeme_matches c -> forallb consumable c = true ->
  String.concat "" (flat_map symbol c) = remove_parens (lexemes c).
Proof.
  induction 1 as [|tok c Htok _ IH]; intros Hc; [reflexivity|].
  cbn [forallb] in Hc. apply andb_true_iff in Hc as [Hc1 Hc2].
  cbn [flat_map].
  rewrite concat_app_strings, lexemes_cons, remove_parens_app, IH
    by exact Hc2.
  rewrite symbol_lexeme by assumption. reflexivity.
Qed.

(** X10: reading the tree in order gives the text back.  When an
    expression is tokenised and parsed, the values of the tree, each
    operator between its operands and each function before its operand,
    concatenate to the expression without its parentheses. *)
Theorem analyse_inorder (fuel : nat) (expression : string) (ast : ASTNode)
    (log : list string) :
  analyse fuel expression = Return (ast, log) ->
  String.concat "" (inorder ast) = remove_parens expression.
Proof.
  intros H. apply analyse_sound in H as [c [Hlex [Hlexemes Hder]]].
  rewrite (proj1 derives_inorder _ _ _ Hder), <- Hlexemes.
  apply symbols_lexemes.
  - apply lexer_lexeme_matches in Hlex.
    apply Forall_app in Hlex as [Hlex _]. exact Hlex.
  - exact (proj1 derives_consumable _ _ _ Hder).
Qed.

Lemma analyse_inorder_witness :
  String.concat ""
    (inorder
       (mkASTNode "*"
          [mkASTNode "+" [mkASTNode "2" []; mkASTNode "3" []];
           mkASTNode "sin" [mkASTNode "4" []]]))
  = remove_parens "(2+3)*sin4".
Proof.
  apply (analyse_inorder 9 "(2+3)*sin4" _
           ["E -> T E'"; "T -> F T'"; "F -> ( E )"; "E -> T E'";
            "T -> F T'"; "F -> NUMBER"; "T' -> ε"; "E' -> + T E'";
            "T -> F T'"; "F -> NUMBER"; "T' -> ε"; "E' -> ε";
            "T' -> * F T'"; "F -> sin F"; "F -> NUMBER"; "T' -> ε";
            "E' -> ε"]).
  reflexivity.
Defined.

(** X11: no expression with a ['^'] or a ['!'] is parsed to a tree: at
    whatever depth, the run raises or is cut off. *)
Theorem analyse_rejects_power_and_factorial (fuel : nat)
    (expression : string) (result : ASTNode * list string) :
  In "^"%char (list_ascii_of_string expression)
  \/ In "!"%char (list_ascii_of_string expression) ->
  analyse fuel expression <> Return result.
Proof.
  intros Hin H. destruct result as [ast log].
  apply analyse_sound in H as [c [Hlex [Hlexemes Hder]]].
  pose proof (proj1 derives_consumable _ _ _ Hder) as Hc.
  apply lexer_lexeme_matches in Hlex.
  apply Forall_app in Hlex as [Hshape _].
  set (p := fun ch => negb (Ascii.eqb ch "^" || Ascii.eqb ch "!")).
  assert (Hall : forallb p (list_ascii_of_string expression) = true).
  { rewrite <- Hlexemes, lexemes_chars, forallb_flat_map.
    apply forallb_forall. intros [t lexeme] Htok.
    rewrite Forall_forall in Hshape. specialize (Hshape _ Htok).
    rewrite forallb_forall in Hc. specialize (Hc _ Htok).
    unfold lexeme_matches, consumable in *. cbn [fst snd] in *.
    destruct t; try discriminate; try (subst lexeme; reflexivity).
    apply number_shape_chars in Hshape. revert Hshape.
    apply forallb_weaken. intros ch Hch. unfold p.
    apply orb_true_iff in Hch as [Hd|Hdot].
    - destruct (Ascii.eqb_spec ch "^") as [->|_]; [discriminate Hd|].
      destruct (Ascii.eqb_spec ch "!") as [->|_]; [discriminate Hd|].
      reflexivity.
    - apply Ascii.eqb_eq in Hdot. subst ch. reflexivity. }
  rewrite forallb_forall in Hall.
  destruct Hin as [Hin|Hin]; apply Hall in Hin; discriminate.
Qed.

Lemma analyse_rejects_power_and_factorial_witness :
  analyse 50 "(1+2)^3"
  <> Return (mkASTNode "^" [mkASTNode "3" []; mkASTNode "3" []], []).
Proof.
  apply analyse_rejects_power_and_factorial.
  left. simpl. tauto.
Defined.

(** ** The depth allowed *)

Lemma extends_refl {A : Type} (m : M A) : extends m m.
Proof. intros self _. reflexivity. Qed.

Lemma extends_trans {A : Type} (m1 m2 m3 : M A) :
  extends m1 m2 -> extends m2 m3 -> extends m1 m3.
Proof.
  intros H12 H23 self H. rewrite <- (H12 self H). apply H23.
  rewrite (H12 self H). exact H.
Qed.

Lemma extends_bind {A B : Type} (m1 m2 : M A) (k1 k2 : A -> M B) :
  extends m1 m2 -> (forall a, extends (k1 a) (k2 a)) ->
  extends (bind m1 k1) (bind m2 k2).
Proof.
  intros Hm Hk self H. unfold bind in *.
  destruct (m1 self) as [[a|msg| |] self'] eqn:E1;
    try (rewrite (Hm self) by (rewrite E1; discriminate);
         rewrite E1; try reflexivity).
  - apply Hk. exact H.
  - contradiction.
Qed.

Ltac extends_steps :=
  repeat first
    [ assumption
    | apply extends_refl
    | apply extends_bind; [|intros ?]
    | match goal with
      | |- extends (match ?t with _ => _ end) _ => destruct t
      end ].

(** One more level of calls on both sides. *)
Lemma parse_rules_extend_step (fuel fuel' : nat) :
  extends (parse_E fuel) (parse_E fuel')
  /\ (forall left,
         extends (parse_E_PRIME fuel left) (parse_E_PRIME fuel' left))
  /\ extends (parse_T fuel) (parse_T fuel')
  /\ (forall left,
         extends (parse_T_PRIME fuel left) (parse_T_PRIME fuel' left))
  /\ extends (parse_F fuel) (parse_F fuel') ->
  extends (parse_E (S fuel)) (parse_E (S fuel'))
  /\ (forall left,
         extends (parse_E_PRIME (S fuel) left)
           (parse_E_PRIME (S fuel') left))
  /\ extends (parse_T (S fuel)) (parse_T (S fuel'))
  /\ (forall left,
         extends (parse_T_PRIME (S fuel) left)
           (parse_T_PRIME (S fuel') left))
  /\ extends (parse_F (S fuel)) (parse_F (S fuel')).
Proof.
  intros [IHE [IHE' [IHT [IHT' IHF]]]].
  split; [|split; [|split; [|split]]]; intros;
    cbn [parse_E parse_E_PRIME parse_T parse_T_PRIME parse_F];
    extends_steps; first [apply IHE'|apply IHT'].
Qed.

Lemma parse_rules_extend (fuel : nat) :
  extends (parse_E fuel) (parse_E (S fuel))
  /\ (forall left,
         extends (parse_E_PRIME fuel left) (parse_E_PRIME (S fuel) left))
  /\ extends (parse_T fuel) (parse_T (S fuel))
  /\ (forall left,
         extends (parse_T_PRIME fuel left) (parse_T_PRIME (S fuel) left))
  /\ extends (parse_F fuel) (parse_F (S fuel)).
Proof.
  induction fuel as [|fuel IH].
  - split; [|split; [|split; [|split]]]; intros; intros self H;
      exfalso; apply H; reflexivity.
  - apply parse_rules_extend_step. exact IH.
Qed.

Lemma parse_extend (fuel k : nat) : extends (parse fuel) (parse (fuel + k)).
Proof.
  induction k as [|k IH].
  - rewrite Nat.add_0_r. apply extends_refl.
  - eapply extends_trans; [exact IH|].
    rewrite Nat.add_succ_r. generalize (fuel + k). intros n.
    destruct n as [|n].
    + intros self H. exfalso. apply H. reflexivity.
    + destruct (parse_rules_extend n) as [HE _].
      cbn [parse]. extends_steps.
Qed.



(** ** Associativity, precedence and parentheses *)

Lemma derives_factors (factors : list (bool * string)) :
  forall left,
  exists l,
    derives_T' left (factors_tokens factors) (factors_tree left factors) l.
Proof.
  induction factors as [|[op y] factors IH]; intros left.
  - eexists. apply T'_empty.
  - destruct (IH (mkASTNode (snd (times_token op))
                    [left; mkASTNode y []])) as [l Hl].
    cbn [factors_tokens flat_map fst snd app].
    change (flat_map _ factors) with (factors_tokens factors).
    destruct op; eexists.
    + apply (T'_multiply left (mkASTNode y []) _ "*" [(NUMBER, y)]).
      * apply F_NUMBER.
      * exact Hl.
    + apply (T'_divide left (mkASTNode y []) _ "/" [(NUMBER, y)]).
      * apply F_NUMBER.
      * exact Hl.
Qed.

Lemma derives_product (p : product) :
  exists l, derives_T (product_tokens p) (product_tree p) l.
Proof.
  destruct p as [x factors].
  destruct (derives_factors factors (mkASTNode x [])) as [l Hl].
  eexists.
  apply (T_F_T' [(NUMBER, x)] (factors_tokens factors) (mkASTNode x []));
    [apply F_NUMBER|exact Hl].
Qed.

Lemma derives_terms (terms : list (bool * product)) :
  forall left,
  exists l, derives_E' left (terms_tokens terms) (terms_tree left terms) l.
Proof.
  induction terms as [|[op p] terms IH]; intros left.
  - eexists. apply E'_empty.
  - destruct (derives_product p) as [l1 H1].
    destruct (IH (mkASTNode (snd (plus_token op)) [left; product_tree p]))
      as [l2 H2].
    cbn [terms_tokens flat_map fst snd].
    change (flat_map _ terms) with (terms_tokens terms).
    destruct op; eexists.
    + apply (E'_plus left (product_tree p) _ "+" (product_tokens p));
        eassumption.
    + apply (E'_minus left (product_tree p) _ "-" (product_tokens p));
        eassumption.
Qed.

(** X13: associativity and precedence.  A sum of products of numbers, in
    any number and with any mix of [+], [-], [*] and [/], parses to the
    tree that nests the products to the left inside each term and the
    terms to the left in the sum: [a - b * c / d - e] is the difference
    of [a - (b * c) / d] and [e], and [(b * c) / d] the quotient of
    [b * c] and [d]. *)
Theorem parse_sum_of_products (p : product) (terms : list (bool * product)) :
  exists n log, forall k,
    run_parse (n + k)
      ((product_tokens p ++ terms_tokens terms) ++ [(EOF, "EOF")])
    = Return (terms_tree (product_tree p) terms, log).
Proof.
  destruct (derives_product p) as [l1 H1].
  destruct (derives_terms terms (product_tree p)) as [l2 H2].
  destruct (parse_complete_run _ [] "EOF" _ _ (E_T_E' _ _ _ _ _ _ H1 H2))
    as [n Hn].
  exists n. eexists. exact Hn.
Qed.

(** X14: parentheses are transparent.  If the tokens [c] parse to a tree,
    then [( c )] parses to the same tree, and the log only gains the
    steps of the enclosing [E], [T] and [F]. *)
Theorem parse_parenthesised (fuel : nat) (c : list token) (lexeme : string)
    (ast : ASTNode) (log : list string) :
  Forall (fun tok => fst tok <> EOF) c ->
  run_parse fuel (c ++ [(EOF, lexeme)]) = Return (ast, log) ->
  exists n, forall k,
    run_parse (n + k)
      ((LPAREN, "(") :: c ++ [(RPAREN, ")"); (EOF, lexeme)])
    = Return
        (ast,
         "E -> T E'" :: "T -> F T'" :: "F -> ( E )" :: log
         ++ ["T' -> ε"; "E' -> ε"]).
Proof.
  intros Hc Hrun.
  apply parse_sound_run in Hrun as [c' [lexeme' [rest [E Hder]]]].
  2: { unfold EOF_terminated. rewrite rev_app_distr. reflexivity. }
  pose proof (proj1 derives_consumable _ _ _ Hder) as Hc'.
  destruct (split_at_EOF c c' rest (EOF, lexeme) (EOF, lexeme') Hc Hc'
              eq_refl eq_refl E) as [-> _].
  pose proof (F_parens "(" ")" _ _ _ Hder) as HF.
  pose proof (T_F_T' _ _ _ _ _ _ HF (T'_empty ast)) as HT.
  pose proof (E_T_E' _ _ _ _ _ _ HT (E'_empty ast)) as HE.
  destruct (parse_complete_run _ [] lexeme _ _ HE) as [n Hn].
  exists n. intros k. specialize (Hn k).
  rewrite !app_nil_r in Hn. cbn [app] in Hn.
  rewrite <- !app_assoc in Hn. cbn [app] in Hn. exact Hn.
Qed.

Lemma parse_parenthesised_witness :
  exists n, forall k,
    run_parse (n + k)
      ((LPAREN, "(") :: [(NUMBER, "2"); (PLUS, "+"); (NUMBER, "3")]
       ++ [(RPAREN, ")"); (EOF, "EOF")])
    = Return
        (mkASTNode "+" [mkASTNode "2" []; mkASTNode "3" []],
         "E -> T E'" :: "T -> F T'" :: "F -> ( E )"
         :: ["E -> T E'"; "T -> F T'"; "F -> NUMBER"; "T' -> ε";
             "E' -> + T E'"; "T -> F T'"; "F -> NUMBER"; "T' -> ε";
             "E' -> ε"]
         ++ ["T' -> ε"; "E' -> ε"]).
Proof.
  apply (parse_parenthesised 6).
  - repeat constructor; discriminate.
  - reflexivity.
Defined.

(** ** The depth a run needs

    A run that is not cut off needs no more than three nested calls per
    token: the calls beyond that depth are those of the left recursion
    of [parse_F], which never answer. *)

Section DepthBound.

Variable toks : list token.
Hypothesis toks_EOF : EOF_terminated toks = true.

Lemma settled_same {A : Type} (m : M A) (r : nat) :
  (forall self, remaining toks self r -> remaining toks (snd (m self)) r) ->
  settled toks m m r.
Proof.
  intros H self Hrem _. split; [reflexivity|]. exists r. auto.
Qed.

Lemma settled_ret {A : Type} (a : A) (r : nat) :
  settled toks (ret a) (ret a) r.
Proof. apply settled_same. auto. Qed.

Lemma settled_append_step (step : string) (r : nat) :
  settled toks (append_step step) (append_step step) r.
Proof. apply settled_same. intros self H. exact H. Qed.

Lemma settled_unexpected_token {A : Type} (r : nat) :
  settled toks (@unexpected_token A) (@unexpected_token A) r.
Proof. apply settled_same. auto. Qed.

Lemma settled_current_type (r : nat) :
  settled toks current_type current_type r.
Proof. apply settled_same. auto. Qed.

Lemma settled_bind {A B : Type} (m1 m2 : M A) (k1 k2 : A -> M B)
    (r : nat) :
  settled toks m1 m2 r ->
  (forall a r', r' <= r -> settled toks (k1 a) (k2 a) r') ->
  settled toks (bind m1 k1) (bind m2 k2) r.
Proof.
  intros Hm Hk self Hrem H. unfold bind in *.
  destruct (m1 self) as [[a|msg| |] self'] eqn:E1;
    try (destruct (Hm self Hrem) as [-> [r' [Hle Hrem']]];
         [rewrite E1; discriminate|]; rewrite E1 in *; cbn [fst snd] in *).
  - destruct (Hk a r' Hle self' Hrem' H) as [-> [r'' [Hle' Hrem'']]].
    split; [reflexivity|]. exists r''. split; [lia|exact Hrem''].
  - split; [reflexivity|]. exists r'. auto.
  - split; [reflexivity|]. exists r'. auto.
  - contradiction.
Qed.

Lemma settled_match {A : Type} (token_type : token_type)
    (k1 k2 : string -> M A) (r : nat) :
  token_type <> EOF ->
  (forall a, 1 <= r -> settled toks (k1 a) (k2 a) (r - 1)) ->
  settled toks (bind (match_ token_type) k1) (bind (match_ token_type) k2) r.
Proof.
  intros Hne Hk self Hrem H. unfold bind in *.
  destruct (consumes_match_ toks toks_EOF token_type r Hne self Hrem)
    as [[msg E]|[a [self' [E [Hpos Hrem']]]]]; rewrite E in *.
  - split; [reflexivity|]. exists r. auto.
  - destruct (Hk a Hpos self' Hrem' H) as [-> [r'' [Hle' Hrem'']]].
    split; [reflexivity|]. exists r''. split; [lia|exact Hrem''].
Qed.

Lemma settled_dispatch {A : Type} (k1 k2 : token_type -> M A) (r : nat) :
  (forall t, t <> CARET -> t <> FACTORIAL -> settled toks (k1 t) (k2 t) r) ->
  (forall self,
      fst (current_token self) = CARET
      \/ fst (current_token self) = FACTORIAL ->
      fst (k1 (fst (current_token self)) self) = OutOfFuel) ->
  settled toks (bind current_type k1) (bind current_type k2) r.
Proof.
  intros Hk Hop self Hrem H.
  change (fst (k1 (fst (current_token self)) self) <> OutOfFuel) in H.
  change (k2 (fst (current_token self)) self
          = k1 (fst (current_token self)) self
          /\ exists r', r' <= r
               /\ remaining toks (snd (k1 (fst (current_token self)) self))
                    r').
  destruct (token_type_eqb (fst (current_token self)) CARET) eqn:E1.
  { apply token_type_eqb_eq in E1. exfalso. apply H, Hop. auto. }
  destruct (token_type_eqb (fst (current_token self)) FACTORIAL) eqn:E2.
  { apply token_type_eqb_eq in E2. exfalso. apply H, Hop. auto. }
  refine (Hk (fst (current_token self)) _ _ self Hrem H).
  - intros E. rewrite E in E1. discriminate.
  - intros E. rewrite E in E2. discriminate.
Qed.

Ltac settled_steps :=
  repeat first
    [ apply settled_ret
    | apply settled_append_step
    | apply settled_unexpected_token
    | apply settled_match; [discriminate|intros ? ?]
    | apply settled_bind; [|intros ? ? ?] ].

Lemma parse_rules_settled (fuel' : nat) :
  forall fuel r,
    (3 * r + 3 <= fuel -> settled toks (parse_E fuel') (parse_E fuel) r)
    /\ (3 * r + 2 <= fuel ->
        forall left,
          settled toks (parse_E_PRIME fuel' left) (parse_E_PRIME fuel left)
            r)
    /\ (3 * r + 2 <= fuel -> settled toks (parse_T fuel') (parse_T fuel) r)
    /\ (3 * r + 1 <= fuel ->
        forall left,
          settled toks (parse_T_PRIME fuel' left) (parse_T_PRIME fuel left)
            r)
    /\ (3 * r + 1 <= fuel -> settled toks (parse_F fuel') (parse_F fuel) r).
Proof.
  induction fuel' as [|fuel' IH]; intros fuel r.
  - split; [|split; [|split; [|split]]]; intros; intros self _ Hout;
      exfalso; apply Hout; reflexivity.
  - destruct fuel as [|fuel];
      [split; [|split; [|split; [|split]]]; intros; lia|].
    split; [|split; [|split; [|split]]]; intros;
      cbn [parse_E parse_E_PRIME parse_T parse_T_PRIME parse_F].
    + settled_steps;
        match goal with
        | |- settled _ _ _ ?r' =>
            destruct (IH fuel r') as [HE [HE' [HT [HT' HF]]]];
            first [apply HT|apply HE']; lia
        end.
    + apply settled_bind; [apply settled_current_type|].
      intros t r' Hle. destruct t; settled_steps;
        match goal with
        | |- settled _ _ _ ?r' =>
            destruct (IH fuel r') as [HE [HE' [HT [HT' HF]]]];
            first [apply HT|apply HE']; lia
        end.
    + settled_steps;
        match goal with
        | |- settled _ _ _ ?r' =>
            destruct (IH fuel r') as [HE [HE' [HT [HT' HF]]]];
            first [apply HF|apply HT']; lia
        end.
    + apply settled_bind; [apply settled_current_type|].
      intros t r' Hle. destruct t; settled_steps;
        match goal with
        | |- settled _ _ _ ?r' =>
            destruct (IH fuel r') as [HE [HE' [HT [HT' HF]]]];
            first [apply HF|apply HT']; lia
        end.
    + apply settled_dispatch.
      * intros t Hcaret Hfact. destruct t; try contradiction;
          settled_steps;
          match goal with
          | |- settled _ _ _ ?r' =>
              destruct (IH fuel r') as [HE [HE' [HT [HT' HF]]]];
              first [apply HE|apply HF]; lia
          end.
      * intros self Hop.
        change (fst (parse_F (S fuel') self) = OutOfFuel).
        apply parse_F_left_recursion. exact Hop.
Qed.

Lemma parse_settled (fuel' fuel r : nat) :
  3 * r + 4 <= fuel -> settled toks (parse fuel') (parse fuel) r.
Proof.
  intros H. destruct fuel' as [|fuel'].
  - intros self _ Hout. exfalso. apply Hout. reflexivity.
  - destruct fuel as [|fuel]; [lia|]. cbn [parse].
    apply settled_bind; [apply parse_rules_settled; lia|].
    intros ast r' Hle. apply settled_bind; [apply settled_current_type|].
    intros t r'' Hle'.
    destruct (negb (token_type_eqb t EOF));
      [apply settled_unexpected_token|apply settled_same; auto].
Qed.

End DepthBound.

(** X15: the input bounds the depth of every run that answers.  On an
    [EOF]-terminated token list, a run of [parse] that returns or raises
    [ValueError] at some depth does so within three nested calls per
    token; a run cut off at that depth is cut off at every depth. *)
Theorem parse_depth_bound (toks : list token) :
  EOF_terminated toks = true ->
  (forall fuel' fuel,
      run_parse fuel' toks <> OutOfFuel ->
      3 * List.length toks + 1 <= fuel ->
      run_parse fuel toks = run_parse fuel' toks)
  /\ (run_parse (3 * List.length toks + 1) toks = OutOfFuel ->
      forall fuel, run_parse fuel toks = OutOfFuel).
Proof.
  intros Hterm.
  assert (Hbound : forall fuel' fuel,
             run_parse fuel' toks <> OutOfFuel ->
             3 * List.length toks + 1 <= fuel ->
             run_parse fuel toks = run_parse fuel' toks).
  { intros fuel' fuel Hans Hfuel. unfold run_parse in *.
    destruct toks as [|t toks'] eqn:Etoks; [discriminate|].
    rewrite <- Etoks in *.
    set (self := {| tokens := toks; index := 0; current_token := t;
                    derivation_steps := [] |}).
    assert (Hinit : __init__ toks = Return self)
      by (unfold __init__, self; rewrite Etoks; reflexivity).
    rewrite Hinit in *.
    assert (Hrem : remaining toks self (List.length toks - 1)).
    { unfold remaining. cbn. rewrite Etoks. cbn. repeat split. lia. }
    assert (Hlen : 1 <= List.length toks) by (rewrite Etoks; simpl; lia).
    destruct (parse_settled toks Hterm fuel' fuel (List.length toks - 1)
                ltac:(lia) self Hrem Hans) as [-> _].
    reflexivity. }
  split; [exact Hbound|].
  intros Hcut fuel.
  destruct (run_parse fuel toks) as [result|msg| |] eqn:E;
    try reflexivity;
    rewrite (Hbound fuel (3 * List.length toks + 1)) in Hcut;
    try (rewrite E in Hcut; discriminate);
    try (rewrite E; discriminate); lia.
Qed.

Lemma parse_depth_bound_witness :
  run_parse (3 * 3 + 1) [(NUMBER, "2"); (PLUS, "+"); (EOF, "EOF")]
  = run_parse 100 [(NUMBER, "2"); (PLUS, "+"); (EOF, "EOF")].
Proof.
  apply (proj1 (parse_depth_bound
                  [(NUMBER, "2"); (PLUS, "+"); (EOF, "EOF")] eq_refl)).
  - vm_compute. discriminate.
  - simpl. lia.
Defined.

(** The sum [2 - 3 * 4 / 5 - 6], as an instance. *)
Example sum_of_products_tree :
  product_tokens ("2", [])
  ++ terms_tokens [(false, ("3", [(true, "4"); (false, "5")]));
                   (false, ("6", []))]
  = [(NUMBER, "2"); (MINUS, "-"); (NUMBER, "3"); (MULTIPLY, "*");
     (NUMBER, "4"); (DIVIDE, "/"); (NUMBER, "5"); (MINUS, "-");
     (NUMBER, "6")]
  /\ terms_tree (product_tree ("2", []))
       [(false, ("3", [(true, "4"); (false, "5")])); (false, ("6", []))]
     = mkASTNode "-"
         [mkASTNode "-"
            [mkASTNode "2" [];
             mkASTNode "/"
               [mkASTNode "*" [mkASTNode "3" []; mkASTNode "4" []];
                mkASTNode "5" []]];
          mkASTNode "6" []].
Proof. split; reflexivity. Qed.

(** ** [parse] decides the grammar *)

(** X16: without [^] and [!] among the tokens, [parse] decides the grammar
    within three nested calls per token.  Either [E] derives the tokens
    before [EOF] and every run of that depth or more returns the tree and
    the log of the derivation, or nothing derives them and every such run
    raises the same [ValueError]. *)
Theorem parse_decides (c : list token) (lexeme : string) :
  Forall (fun tok => fst tok <> EOF) c ->
  operator_free c = true ->
  (exists ast log,
      derives_E c ast log
      /\ forall k,
           run_parse (3 * (List.length c + 1) + 1 + k)
             (c ++ [(EOF, lexeme)])
           = Return (ast, log))
  \/ (exists msg,
        (forall ast log, ~ derives_E c ast log)
        /\ forall k,
             run_parse (3 * (List.length c + 1) + 1 + k)
               (c ++ [(EOF, lexeme)])
             = ValueError msg).
Proof.
  intros Hc Hfree.
  set (toks := c ++ [(EOF, lexeme)]).
  assert (Hterm : EOF_terminated toks = true)
    by (unfold EOF_terminated, toks; rewrite rev_app_distr; reflexivity).
  assert (Hfree' : operator_free toks = true).
  { unfold operator_free, toks in *. rewrite forallb_app.
    apply andb_true_iff. split; [exact Hfree|reflexivity]. }
  assert (Hlen : List.length toks = List.length c + 1)
    by (unfold toks; rewrite length_app; reflexivity).
  rewrite <- Hlen.
  assert (Hstable : forall k,
             run_parse (3 * List.length toks + 1) toks <> OutOfFuel ->
             run_parse (3 * List.length toks + 1 + k) toks
             = run_parse (3 * List.length toks + 1) toks).
  { intros k H. unfold run_parse in *.
    destruct (__init__ toks) as [self|msg| |]; try reflexivity.
    rewrite (parse_extend _ k self H). reflexivity. }
  destruct (parse_terminates_operator_free toks 0 Hterm Hfree')
    as [[[ast log] H]|[msg H]]; rewrite Nat.add_0_r in H.
  - left. exists ast, log. split.
    + apply parse_sound_run in H as [c' [lexeme' [rest [E Hder]]]];
        [|exact Hterm].
      pose proof (proj1 derives_consumable _ _ _ Hder) as Hc'.
      destruct (split_at_EOF c c' rest (EOF, lexeme) (EOF, lexeme') Hc Hc'
                  eq_refl eq_refl E) as [-> _].
      exact Hder.
    + intros k. rewrite Hstable; [exact H|]. rewrite H. discriminate.
  - right. exists msg. split.
    + intros ast log Hder.
      destruct (parse_complete_run c [] lexeme ast log Hder) as [n Hn].
      specialize (Hn (3 * List.length toks + 1)). fold toks in Hn.
      rewrite Nat.add_comm, Hstable, H in Hn; [discriminate|].
      rewrite H. discriminate.
    + intros k. rewrite Hstable; [exact H|]. rewrite H. discriminate.
Qed.

Lemma parse_decides_witness :
  (exists ast log,
      derives_E [(NUMBER, "2"); (PLUS, "+")] ast log
      /\ forall k,
           run_parse (3 * (2 + 1) + 1 + k)
             ([(NUMBER, "2"); (PLUS, "+")] ++ [(EOF, "EOF")])
           = Return (ast, log))
  \/ (exists msg,
        (forall ast log, ~ derives_E [(NUMBER, "2"); (PLUS, "+")] ast log)
        /\ forall k,
             run_parse (3 * (2 + 1) + 1 + k)
               ([(NUMBER, "2"); (PLUS, "+")] ++ [(EOF, "EOF")])
             = ValueError msg).
Proof.
  apply (parse_decides [(NUMBER, "2"); (PLUS, "+")] "EOF").
  - repeat constructor; discriminate.
  - reflexivity.
Defined.
